(** * SVGPathy: the ellipse of [lib/ellipse.js]

    A shallow embedding of [Ellipse], its constructor and its three methods
    [transform], [isDegenerate] and [normalise], over exact real arithmetic.

    A JavaScript number is modelled as a real number, one of the two
    infinities, or NaN.  Finite arithmetic is exact (no rounding, no
    overflow); the special values follow IEEE 754 so that a division by zero
    or the square root of a negative number is visible in the result, as it
    is in the program.

    The program itself computes in binary64.  Module [B64] below is the same
    program over the primitive binary64 numbers; it is what decides how the
    program behaves where rounding matters, and it runs. *)

From Stdlib Require Import Reals Lra Lia ZArith List.
From Stdlib Require PrimFloat FloatOps SpecFloat.
From stdpp Require Import base option list gmap.

Open Scope R_scope.

(** ** JavaScript numbers *)

Module Num.

Inductive num : Type :=
  | Fin (x : R)   (* a finite number *)
  | PInf          (* Infinity *)
  | NInf          (* -Infinity *)
  | NaN.          (* NaN; also what [undefined] becomes in arithmetic *)

Definition is_finite (a : num) : bool :=
  match a with Fin _ => true | _ => false end.

Definition neg (a : num) : num :=
  match a with
  | Fin x => Fin (- x)
  | PInf => NInf
  | NInf => PInf
  | NaN => NaN
  end.

Definition add (a b : num) : num :=
  match a, b with
  | NaN, _ | _, NaN => NaN
  | Fin x, Fin y => Fin (x + y)
  | PInf, NInf | NInf, PInf => NaN
  | PInf, _ | _, PInf => PInf
  | NInf, _ | _, NInf => NInf
  end.

Definition sub (a b : num) : num := add a (neg b).

(** The sign of an infinity multiplied (or divided) by a finite [y];
    [zero] is the result when [y = 0]. *)
Definition signed (pos : bool) (y : R) (zero : num) : num :=
  if Req_dec_T y 0 then zero
  else if Rlt_dec 0 y then (if pos then PInf else NInf)
  else (if pos then NInf else PInf).

Definition mul (a b : num) : num :=
  match a, b with
  | NaN, _ | _, NaN => NaN
  | Fin x, Fin y => Fin (x * y)
  | PInf, Fin y | Fin y, PInf => signed true y NaN
  | NInf, Fin y | Fin y, NInf => signed false y NaN
  | PInf, PInf | NInf, NInf => PInf
  | PInf, NInf | NInf, PInf => NInf
  end.

(** Zero carries no sign in this model: a finite number divided by zero takes
    the sign of the numerator, which is what the program computes whenever the
    divisor is a [+0], as the radii of [normalise] (absolute values) are. *)
Definition div (a b : num) : num :=
  match a, b with
  | NaN, _ | _, NaN => NaN
  | Fin x, Fin y =>
      if Req_dec_T y 0 then signed true x NaN else Fin (x / y)
  | Fin _, _ => Fin 0
  | PInf, Fin y => signed true y PInf
  | NInf, Fin y => signed false y NInf
  | _, _ => NaN
  end.

(** Truncation towards zero, for the remainder operator. *)
Definition Rtrunc (x : R) : Z :=
  if Rle_dec 0 x then Int_part x else (- Int_part (- x))%Z.

(** [a % b]: the remainder has the sign of the dividend. *)
Definition rem (a b : num) : num :=
  match a, b with
  | NaN, _ | _, NaN => NaN
  | Fin x, Fin y =>
      if Req_dec_T y 0 then NaN else Fin (x - y * IZR (Rtrunc (x / y)))
  | Fin x, _ => Fin x
  | _, _ => NaN
  end.

Definition abs (a : num) : num :=
  match a with
  | Fin x => Fin (Rabs x)
  | PInf | NInf => PInf
  | NaN => NaN
  end.

Definition sqrt (a : num) : num :=
  match a with
  | Fin x => if Rlt_dec x 0 then NaN else Fin (R_sqrt.sqrt x)
  | PInf => PInf
  | NInf | NaN => NaN
  end.

Definition cos (a : num) : num :=
  match a with Fin x => Fin (Rtrigo_def.cos x) | _ => NaN end.

Definition sin (a : num) : num :=
  match a with Fin x => Fin (Rtrigo_def.sin x) | _ => NaN end.

Definition atan (a : num) : num :=
  match a with
  | Fin x => Fin (Ratan.atan x)
  | PInf => Fin (PI / 2)
  | NInf => Fin (- (PI / 2))
  | NaN => NaN
  end.

(** Comparisons: every comparison with NaN is false. *)
Definition le (a b : num) : bool :=
  match a, b with
  | NaN, _ | _, NaN => false
  | Fin x, Fin y => if Rle_dec x y then true else false
  | NInf, _ | _, PInf => true
  | _, _ => false
  end.

Definition lt (a b : num) : bool :=
  match a, b with
  | NaN, _ | _, NaN => false
  | Fin x, Fin y => if Rlt_dec x y then true else false
  | PInf, _ | _, NInf => false
  | _, _ => true
  end.

Definition ge (a b : num) : bool := le b a.
Definition gt (a b : num) : bool := lt b a.

(** [!a]: zero and NaN (and [undefined]) are falsy. *)
Definition not (a : num) : bool :=
  match a with
  | Fin x => if Req_dec_T x 0 then true else false
  | NaN => true
  | _ => false
  end.

End Num.

Abbreviation num := Num.num.
Abbreviation Fin := Num.Fin.
Abbreviation PInf := Num.PInf.
Abbreviation NInf := Num.NInf.
Abbreviation NaN := Num.NaN.

Declare Scope num_scope.
Delimit Scope num_scope with num.
Bind Scope num_scope with num.
Notation "a + b" := (Num.add a b) : num_scope.
Notation "a - b" := (Num.sub a b) : num_scope.
Notation "a * b" := (Num.mul a b) : num_scope.
Notation "a / b" := (Num.div a b) : num_scope.
Notation "- a" := (Num.neg a) : num_scope.
Notation "a 'mod' b" := (Num.rem a b) : num_scope.
Notation "a <=? b" := (Num.le a b) (at level 70) : num_scope.
Notation "a <? b" := (Num.lt a b) (at level 70) : num_scope.
Notation "a >=? b" := (Num.ge a b) (at level 70) : num_scope.
Notation "a >? b" := (Num.gt a b) (at level 70) : num_scope.

(** A numeric literal of the program. *)
Coercion Fin : R >-> num.

(** ** The program *)

(** [var torad = Math.PI / 180] *)
Definition torad : num := (Fin PI / Fin 180)%num.

(** The object: three geometric fields and the tolerance. *)
Record Ellipse : Type := mkEllipse {
  rx : num;
  ry : num;
  ax : num;
  epsilon : num
}.

Definition set_rx (v : num) (e : Ellipse) : Ellipse :=
  mkEllipse v (ry e) (ax e) (epsilon e).
Definition set_ry (v : num) (e : Ellipse) : Ellipse :=
  mkEllipse (rx e) v (ax e) (epsilon e).
Definition set_ax (v : num) (e : Ellipse) : Ellipse :=
  mkEllipse (rx e) (ry e) v (epsilon e).

(** [function Ellipse(rx, ry, ax, precision)]: [precision] is an optional
    integer; [+('1e' + (-precision))] is ten to the power [-precision]. *)
Definition Ellipse_new (rx ry ax : num) (precision : option Z) : Ellipse :=
  mkEllipse rx ry ax
    (match precision with
     | None => Fin (powerRZ 10 (-7))
     | Some p => Fin (powerRZ 10 (- p))
     end).

(** [m[i]]: reading past the end of an array gives [undefined], which every
    arithmetic operation turns into NaN. *)
Definition idx (m : list num) (i : nat) : num := default NaN (m !! i).

Notation "m .[ i ]" := (idx m i) (at level 1, format "m .[ i ]").

Section Methods.

Local Open Scope num_scope.

(** [ma = m x rotate(ax) x scale(rx,ry)] *)
Definition ma (m : list num) (this : Ellipse) : list num :=
  let c := Num.cos (ax this * torad) in
  let s := Num.sin (ax this * torad) in
  [ rx this * (m.[0] * c + m.[2] * s);
    rx this * (m.[1] * c + m.[3] * s);
    ry this * (- m.[0] * s + m.[2] * c);
    ry this * (- m.[1] * s + m.[3] * c) ].

(** The entries of [ma * transpose(ma)]. *)
Definition J (ma : list num) : num := ma.[0] * ma.[0] + ma.[2] * ma.[2].
Definition K (ma : list num) : num := ma.[1] * ma.[1] + ma.[3] * ma.[3].
Definition L (ma : list num) : num := ma.[0] * ma.[1] + ma.[2] * ma.[3].

(** The argument of the square root that gives [D]. *)
Definition discriminant (ma : list num) : num :=
  ((ma.[0] - ma.[3]) * (ma.[0] - ma.[3]) + (ma.[2] + ma.[1]) * (ma.[2] + ma.[1])) *
  ((ma.[0] + ma.[3]) * (ma.[0] + ma.[3]) + (ma.[2] - ma.[1]) * (ma.[2] - ma.[1])).

Definition D (ma : list num) : num := Num.sqrt (discriminant ma).
Definition JK (ma : list num) : num := (J ma + K ma) / Fin 2.
Definition l1 (ma : list num) : num := JK ma + D ma / Fin 2.
Definition l2 (ma : list num) : num := JK ma - D ma / Fin 2.

(** The denominator the angle formula divides by. *)
Definition angle_divisor (ma : list num) : num :=
  if Num.abs (L ma) >? Num.abs (l1 ma - K ma)
  then L ma
  else l1 ma - K ma.

Definition angle_dividend (ma : list num) : num :=
  if Num.abs (L ma) >? Num.abs (l1 ma - K ma)
  then l1 ma - J ma
  else L ma.

(** The branch of [transform] that is taken. *)
Inductive branch : Type := Circle | Diagonal | Quarter | General.

Definition transform_branch (m : list num) (this : Ellipse) : branch :=
  let ma := ma m this in
  if D ma <=? epsilon this then Circle
  else if Num.abs (D ma - Num.abs (J ma - K ma)) <=? epsilon this
  then Diagonal
  else if (Num.abs (L ma) <=? epsilon this)
          && (Num.abs (l1 ma - K ma) <=? epsilon this)
  then Quarter
  else General.

(** [Ellipse.prototype.transform] *)
Definition transform (m : list num) (this : Ellipse) : Ellipse :=
  let ma := ma m this in
  let J := J ma in
  let K := K ma in
  let D := D ma in
  let JK := JK ma in
  if D <=? epsilon this then
    set_ax (Fin 0) (set_rx (Num.sqrt JK) (set_ry (Num.sqrt JK) this))
  else if Num.abs (D - Num.abs (J - K)) <=? epsilon this then
    set_ax (Fin 0) (set_ry (Num.sqrt K) (set_rx (Num.sqrt J) this))
  else
    let L := L ma in
    let l1 := l1 ma in
    let l2 := l2 ma in
    if (Num.abs L <=? epsilon this) && (Num.abs (l1 - K) <=? epsilon this) then
      set_ry (Num.sqrt l1) (set_rx (Num.sqrt l2) (set_ax (Fin 0) this))
    else
      let this :=
        set_ax (Num.atan (if Num.abs L >? Num.abs (l1 - K)
                          then (l1 - J) / L
                          else L / (l1 - K)) / torad) this in
      if ax this >=? Fin 0 then
        set_ry (Num.sqrt l2) (set_rx (Num.sqrt l1) this)
      else
        set_ry (Num.sqrt l1) (set_rx (Num.sqrt l2) (set_ax (ax this + Fin 90) this)).

(** [Ellipse.prototype.isDegenerate] *)
Definition isDegenerate (this : Ellipse) : bool :=
  (Num.abs (rx this) <=? epsilon this) || (Num.abs (ry this) <=? epsilon this).

(** Lines 119-139 of [normalise]: radii made non-negative, a near circle
    made a circle, the angle brought into a quarter turn. *)
Definition canonicalise (this : Ellipse) : Ellipse :=
  let this := set_rx (Num.abs (rx this)) this in
  let this := set_ry (Num.abs (ry this)) this in
  if Num.abs (rx this - ry this) <=? epsilon this then
    let this := set_ax (Fin 0) this in
    let mean := (rx this + ry this) / Fin 2 in
    set_rx mean (set_ry mean this)
  else
    let this := set_ax (ax this mod Fin 180) this in
    let this := if ax this <? Fin 0 then set_ax (ax this + Fin 180) this else this in
    if ax this >=? Fin 90 then
      let tempr := rx this in
      let this := set_rx (ry this) this in
      let this := set_ry tempr this in
      set_ax (ax this - Fin 90) this
    else this.

(** Lines 144-147 of [normalise]: the factor [k] by which [(dx,dy)] exceeds
    the ellipse. *)
Definition scale_factor (dx dy : num) (this : Ellipse) : num :=
  let c := Num.cos (ax this * torad) in
  let s := Num.sin (- ax this * torad) in
  let ndx := (dx * c - dy * s) / rx this in
  let ndy := (dx * s + dy * c) / ry this in
  Num.sqrt (ndx * ndx + ndy * ndy).

(** [Ellipse.prototype.normalise]; an omitted argument is [undefined], which
    is falsy and NaN in arithmetic, hence modelled by [NaN]. *)
Definition normalise (dx dy : num) (this : Ellipse) : Ellipse :=
  let this := canonicalise this in
  if Num.not dx && Num.not dy then this
  else
    let k := scale_factor dx dy this in
    if k >? Fin 1 then
      let this := set_rx (rx this * k) this in
      set_ry (ry this * k) this
    else this.

End Methods.

(** ** Finite inputs *)

(** An ellipse all of whose fields are real numbers, and a 2x2 matrix of
    real numbers [[a, b, c, d]]. *)
Definition real_ellipse (x y t eps : R) : Ellipse :=
  mkEllipse (Fin x) (Fin y) (Fin t) (Fin eps).

Definition matrix (a b c d : R) : list num := [Fin a; Fin b; Fin c; Fin d].

(** What the program computes from a finite [ma = [p, q, r, s]]. *)
Module Exact.

Definition J (p r : R) : R := p * p + r * r.
Definition K (q s : R) : R := q * q + s * s.
Definition L (p q r s : R) : R := p * q + r * s.
Definition discriminant (p q r s : R) : R :=
  ((p - s) * (p - s) + (r + q) * (r + q)) * ((p + s) * (p + s) + (r - q) * (r - q)).
Definition D (p q r s : R) : R := sqrt (discriminant p q r s).
Definition JK (p q r s : R) : R := (J p r + K q s) / 2.
Definition l1 (p q r s : R) : R := JK p q r s + D p q r s / 2.
Definition l2 (p q r s : R) : R := JK p q r s - D p q r s / 2.

End Exact.

(** ** The object store

    A method call mutates the receiver in place and returns a reference. *)

Definition loc := positive.
Definition heap := gmap loc Ellipse.

Definition method (body : Ellipse -> Ellipse) (this : loc) (h : heap)
  : option (loc * heap) :=
  e ← h !! this; Some (this, <[this := body e]> h).

Definition transform_method (m : list num) := method (transform m).
Definition normalise_method (dx dy : num) := method (normalise dx dy).

(** ** Auxiliary definitions for the statements *)

(** A number that is real and not negative. *)
Definition nonneg (a : num) : Prop :=
  match a with Fin x => 0 <= x | _ => False end.

(** The characteristic polynomial [det (S - lam I)] of the symmetric matrix
    [S = [[j, l], [l, k]]]. *)
Definition charpoly (j k l lam : R) : R := (j - lam) * (k - lam) - l * l.

Module ExactAngle.

(** The quotient whose arc tangent is the angle, and the angle in degrees. *)
Definition quotient (p q r s : R) : R :=
  if Rlt_dec (Rabs (Exact.l1 p q r s - Exact.K q s)) (Rabs (Exact.L p q r s))
  then (Exact.l1 p q r s - Exact.J p r) / Exact.L p q r s
  else Exact.L p q r s / (Exact.l1 p q r s - Exact.K q s).

Definition divisor (p q r s : R) : R :=
  if Rlt_dec (Rabs (Exact.l1 p q r s - Exact.K q s)) (Rabs (Exact.L p q r s))
  then Exact.L p q r s
  else Exact.l1 p q r s - Exact.K q s.

Definition degrees (p q r s : R) : R := atan (quotient p q r s) / (PI / 180).

End ExactAngle.

(** The remainder [x % y] of two reals, [y] not zero. *)
Definition fmod (x y : R) : R := x - y * IZR (Num.Rtrunc (x / y)).

(** The angle after [ax % 180] and the shift of a negative remainder. *)
Definition half_turn (t : R) : R :=
  if Rlt_dec (fmod t 180) 0 then fmod t 180 + 180 else fmod t 180.

(** The scale step on a finite vector and a finite ellipse with radii
    [x0], [y0] and angle [t0]. *)
Module ExactScale.

Definition ndx (dx dy x0 t0 : R) : R :=
  (dx * cos (t0 * (PI / 180)) - dy * sin (- t0 * (PI / 180))) / x0.
Definition ndy (dx dy y0 t0 : R) : R :=
  (dx * sin (- t0 * (PI / 180)) + dy * cos (t0 * (PI / 180))) / y0.
Definition k (dx dy x0 y0 t0 : R) : R :=
  sqrt (ndx dx dy x0 t0 * ndx dx dy x0 t0 + ndy dx dy y0 t0 * ndy dx dy y0 t0).

End ExactScale.

(** An angle the canonicalisation leaves alone: a real in [[0, 90)], or NaN. *)
Definition quarter (a : num) : Prop :=
  match a with
  | Fin t => 0 <= t < 90
  | NaN => True
  | _ => False
  end.

(** ** The program in binary64

    The same functions over IEEE 754 binary64 numbers, every operation
    rounded to nearest as the program's are.  [Math.cos], [Math.sin] and
    [Math.atan] are implementation-approximated in ECMAScript, so they are
    a parameter [M]; only the results the language fixes are assumed of it
    ([conforming]). *)

Module B64.

Import PrimFloat FloatOps SpecFloat.
Local Open Scope bool_scope.
Local Open Scope float_scope.

Record Math : Type := mkMath {
  cos : float -> float;
  sin : float -> float;
  atan : float -> float
}.

(** [Math.cos(0)] is 1, [Math.sin] and [Math.atan] keep a zero and its
    sign. *)
Definition conforming (M : Math) : Prop :=
  cos M 0 = 1 /\ sin M 0 = 0 /\ sin M (-0) = -0 /\ atan M 0 = 0.

(** An implementation that answers the fixed arguments and nothing else; it
    shows that [conforming] can be met. *)
Definition fixed_points : Math :=
  mkMath (fun x => if is_zero x then 1 else nan)
         (fun x => if is_zero x then x else nan)
         (fun x => if is_zero x then x else nan).

(** [Math.PI] and [var torad = Math.PI / 180] *)
Definition PI : float := 0x1.921fb54442d18p+1.
Definition torad : float := PI / 180.

Record Ellipse : Type := mkEllipse {
  rx : float;
  ry : float;
  ax : float;
  epsilon : float
}.

Definition set_rx (v : float) (e : Ellipse) : Ellipse :=
  mkEllipse v (ry e) (ax e) (epsilon e).
Definition set_ry (v : float) (e : Ellipse) : Ellipse :=
  mkEllipse (rx e) v (ax e) (epsilon e).
Definition set_ax (v : float) (e : Ellipse) : Ellipse :=
  mkEllipse (rx e) (ry e) v (epsilon e).

(** The values of [epsilon] the constructor gives for no precision (1e-7)
    and for precision 16 (1e-16), as the nearest binary64 numbers. *)
Definition epsilon_default : float := 0x1.ad7f29abcaf48p-24.
Definition epsilon_16 : float := 0x1.cd2b297d889bcp-54.

(** [m[i]], NaN past the end. *)
Definition idx (m : list float) (i : nat) : float := nth i m nan.

(** Trailing zero bits of a mantissa moved into the exponent. *)
Fixpoint strip (m : positive) (e : Z) : positive * Z :=
  match m with
  | xO m' => strip m' (e + 1)%Z
  | _ => (m, e)
  end.

(** [a % b]: the exact remainder of the truncated division, which is always
    a binary64 number; it has the sign of [a]. *)
Definition rem (a b : float) : float :=
  match Prim2SF a, Prim2SF b with
  | S754_nan, _ | _, S754_nan => nan
  | S754_infinity _, _ => nan
  | _, S754_zero _ => nan
  | S754_zero _, _ => a
  | S754_finite _ _ _, S754_infinity _ => a
  | S754_finite sa ma ea, S754_finite _ mb eb =>
      let e := Z.min ea eb in
      let A := (Zpos ma * 2 ^ (ea - e))%Z in
      let B := (Zpos mb * 2 ^ (eb - e))%Z in
      match (A mod B)%Z with
      | Zpos r => let (m, e') := strip r e in SF2Prim (S754_finite sa m e')
      | _ => if sa then -0 else 0
      end
  end.

(** [!a] *)
Definition not (a : float) : bool := is_zero a || is_nan a.

Section Methods.

Variable M : Math.

Definition ma (m : list float) (this : Ellipse) : list float :=
  let c := cos M (ax this * torad) in
  let s := sin M (ax this * torad) in
  [ rx this * (idx m 0 * c + idx m 2 * s);
    rx this * (idx m 1 * c + idx m 3 * s);
    ry this * (- idx m 0 * s + idx m 2 * c);
    ry this * (- idx m 1 * s + idx m 3 * c) ].

Definition transform (m : list float) (this : Ellipse) : Ellipse :=
  let ma := ma m this in
  let J := idx ma 0 * idx ma 0 + idx ma 2 * idx ma 2 in
  let K := idx ma 1 * idx ma 1 + idx ma 3 * idx ma 3 in
  let D := sqrt (((idx ma 0 - idx ma 3) * (idx ma 0 - idx ma 3)
                  + (idx ma 2 + idx ma 1) * (idx ma 2 + idx ma 1)) *
                 ((idx ma 0 + idx ma 3) * (idx ma 0 + idx ma 3)
                  + (idx ma 2 - idx ma 1) * (idx ma 2 - idx ma 1))) in
  let JK := (J + K) / 2 in
  if D <=? epsilon this then
    set_ax 0 (set_rx (sqrt JK) (set_ry (sqrt JK) this))
  else if abs (D - abs (J - K)) <=? epsilon this then
    set_ax 0 (set_ry (sqrt K) (set_rx (sqrt J) this))
  else
    let L := idx ma 0 * idx ma 1 + idx ma 2 * idx ma 3 in
    let l1 := JK + D / 2 in
    let l2 := JK - D / 2 in
    if (abs L <=? epsilon this) && (abs (l1 - K) <=? epsilon this) then
      set_ry (sqrt l1) (set_rx (sqrt l2) (set_ax 0 this))
    else
      let this :=
        set_ax (atan M (if abs (l1 - K) <? abs L
                        then (l1 - J) / L
                        else L / (l1 - K)) / torad) this in
      if 0 <=? ax this then
        set_ry (sqrt l2) (set_rx (sqrt l1) this)
      else
        set_ry (sqrt l1) (set_rx (sqrt l2) (set_ax (ax this + 90) this)).

Definition isDegenerate (this : Ellipse) : bool :=
  (abs (rx this) <=? epsilon this) || (abs (ry this) <=? epsilon this).

Definition canonicalise (this : Ellipse) : Ellipse :=
  let this := set_rx (abs (rx this)) this in
  let this := set_ry (abs (ry this)) this in
  if abs (rx this - ry this) <=? epsilon this then
    let this := set_ax 0 this in
    let mean := (rx this + ry this) / 2 in
    set_rx mean (set_ry mean this)
  else
    let this := set_ax (rem (ax this) 180) this in
    let this := if ax this <? 0 then set_ax (ax this + 180) this else this in
    if 90 <=? ax this then
      let tempr := rx this in
      let this := set_rx (ry this) this in
      let this := set_ry tempr this in
      set_ax (ax this - 90) this
    else this.

Definition scale_factor (dx dy : float) (this : Ellipse) : float :=
  let c := cos M (ax this * torad) in
  let s := sin M (- ax this * torad) in
  let ndx := (dx * c - dy * s) / rx this in
  let ndy := (dx * s + dy * c) / ry this in
  sqrt (ndx * ndx + ndy * ndy).

(** An omitted argument is [undefined]: falsy, NaN in arithmetic. *)
Definition normalise (dx dy : float) (this : Ellipse) : Ellipse :=
  let this := canonicalise this in
  if not dx && not dy then this
  else
    let k := scale_factor dx dy this in
    if 1 <? k then
      let this := set_rx (rx this * k) this in
      set_ry (ry this * k) this
    else this.

End Methods.

End B64.

(** ** Evaluation lemmas *)

Section Evaluation.

Local Open Scope num_scope.

Lemma le_fin (x y : R) : (Fin x <=? Fin y) = true <-> (x <= y)%R.
Proof. unfold Num.le. destruct (Rle_dec x y); split; intros; (done || lra). Qed.

Lemma le_fin_false (x y : R) : (Fin x <=? Fin y) = false <-> (y < x)%R.
Proof. unfold Num.le. destruct (Rle_dec x y); split; intros; (done || lra). Qed.

Lemma lt_fin (x y : R) : (Fin x <? Fin y) = true <-> (x < y)%R.
Proof. unfold Num.lt. destruct (Rlt_dec x y); split; intros; (done || lra). Qed.

Lemma lt_fin_false (x y : R) : (Fin x <? Fin y) = false <-> (y <= x)%R.
Proof. unfold Num.lt. destruct (Rlt_dec x y); split; intros; (done || lra). Qed.

Lemma div_fin (x y : R) : y <> 0%R -> Fin x / Fin y = Fin (x / y).
Proof. intros Hy. unfold Num.div. destruct (Req_dec_T y 0); [done | reflexivity]. Qed.

Lemma fin_nonzero (u : R) : Fin u <> Fin 0 <-> u <> 0%R.
Proof. split; intros H Hu; apply H; [by rewrite Hu | by injection Hu]. Qed.

Lemma fin_zero (u : R) : Fin u = Fin 0 <-> u = 0%R.
Proof. split; [by intros [= ->] | by intros ->]. Qed.

Lemma sqrt_fin (x : R) : (0 <= x)%R -> Num.sqrt (Fin x) = Fin (sqrt x).
Proof. intros Hx. unfold Num.sqrt. destruct (Rlt_dec x 0); [lra | reflexivity]. Qed.

Lemma not_fin (x : R) : Num.not (Fin x) = true <-> x = 0%R.
Proof. unfold Num.not. destruct (Req_dec_T x 0); split; intros; done. Qed.

Lemma torad_fin : torad = Fin (PI / 180).
Proof. unfold torad. apply div_fin. lra. Qed.

Lemma torad_pos : (0 < PI / 180)%R.
Proof. pose proof PI_RGT_0. lra. Qed.

Lemma ma_fin (a b c d x y t eps : R) :
  ma (matrix a b c d) (real_ellipse x y t eps) =
  matrix (x * (a * cos (t * (PI / 180)) + c * sin (t * (PI / 180))))
         (x * (b * cos (t * (PI / 180)) + d * sin (t * (PI / 180))))
         (y * (- a * sin (t * (PI / 180)) + c * cos (t * (PI / 180))))
         (y * (- b * sin (t * (PI / 180)) + d * cos (t * (PI / 180)))).
Proof. unfold ma. rewrite torad_fin. reflexivity. Qed.

Lemma J_fin (p q r s : R) : J (matrix p q r s) = Fin (Exact.J p r).
Proof. reflexivity. Qed.

Lemma K_fin (p q r s : R) : K (matrix p q r s) = Fin (Exact.K q s).
Proof. reflexivity. Qed.

Lemma L_fin (p q r s : R) : L (matrix p q r s) = Fin (Exact.L p q r s).
Proof. reflexivity. Qed.

Lemma discriminant_fin (p q r s : R) :
  discriminant (matrix p q r s) = Fin (Exact.discriminant p q r s).
Proof.
  unfold discriminant, Exact.discriminant; cbn.
  f_equal; ring.
Qed.

Lemma sum_squares_nonneg (u v : R) : (0 <= u * u + v * v)%R.
Proof. nra. Qed.

Lemma discriminant_nonneg (p q r s : R) : (0 <= Exact.discriminant p q r s)%R.
Proof. unfold Exact.discriminant. apply Rmult_le_pos; apply sum_squares_nonneg. Qed.

Lemma D_fin (p q r s : R) : D (matrix p q r s) = Fin (Exact.D p q r s).
Proof.
  unfold D. rewrite discriminant_fin.
  apply sqrt_fin, discriminant_nonneg.
Qed.

Lemma JK_fin (p q r s : R) : JK (matrix p q r s) = Fin (Exact.JK p q r s).
Proof. unfold JK. rewrite J_fin, K_fin. cbn [Num.add]. apply div_fin. lra. Qed.

Lemma l1_fin (p q r s : R) : l1 (matrix p q r s) = Fin (Exact.l1 p q r s).
Proof. unfold l1. rewrite JK_fin, D_fin, div_fin by lra. reflexivity. Qed.

Lemma l2_fin (p q r s : R) : l2 (matrix p q r s) = Fin (Exact.l2 p q r s).
Proof.
  unfold l2. rewrite JK_fin, D_fin, div_fin by lra.
  unfold Exact.l2; cbn. f_equal; ring.
Qed.

End Evaluation.

(** ** The quadratic form of [transform] *)

Section QuadraticForm.

Variables p q r s : R.

Lemma J_nonneg : 0 <= Exact.J p r.
Proof. apply sum_squares_nonneg. Qed.

Lemma K_nonneg : 0 <= Exact.K q s.
Proof. apply sum_squares_nonneg. Qed.

Lemma JK_nonneg : 0 <= Exact.JK p q r s.
Proof. unfold Exact.JK. pose proof J_nonneg. pose proof K_nonneg. lra. Qed.

Lemma D_nonneg : 0 <= Exact.D p q r s.
Proof. apply sqrt_pos. Qed.

Lemma D_square :
  Exact.D p q r s * Exact.D p q r s =
  (Exact.J p r - Exact.K q s) * (Exact.J p r - Exact.K q s)
  + 4 * (Exact.L p q r s * Exact.L p q r s).
Proof.
  unfold Exact.D. rewrite sqrt_sqrt by apply discriminant_nonneg.
  unfold Exact.discriminant, Exact.J, Exact.K, Exact.L. ring.
Qed.

(** The geometric mean of the two factors is at most their arithmetic mean,
    which is [J + K]. *)
Lemma D_le_trace : Exact.D p q r s <= Exact.J p r + Exact.K q s.
Proof.
  pose proof D_nonneg as HD. pose proof D_square as Hsq.
  pose proof J_nonneg as HJ. pose proof K_nonneg as HK.
  assert (HL : Exact.L p q r s * Exact.L p q r s <= Exact.J p r * Exact.K q s).
  { assert (Hcs : Exact.J p r * Exact.K q s - Exact.L p q r s * Exact.L p q r s
                   = (p * s - r * q) * (p * s - r * q))
      by (unfold Exact.L, Exact.J, Exact.K; ring).
    pose proof (sum_squares_nonneg (p * s - r * q) 0). lra. }
  apply Rnot_lt_le; intros Hlt.
  assert (Hlt2 : (Exact.J p r + Exact.K q s) * (Exact.J p r + Exact.K q s)
                 < Exact.D p q r s * Exact.D p q r s) by nra.
  nra.
Qed.

Lemma l2_nonneg : 0 <= Exact.l2 p q r s.
Proof. unfold Exact.l2, Exact.JK. pose proof D_le_trace. lra. Qed.

Lemma l1_nonneg : 0 <= Exact.l1 p q r s.
Proof. unfold Exact.l1. pose proof JK_nonneg. pose proof D_nonneg. lra. Qed.

Lemma l1_charpoly :
  charpoly (Exact.J p r) (Exact.K q s) (Exact.L p q r s) (Exact.l1 p q r s) = 0.
Proof. unfold charpoly, Exact.l1, Exact.JK. pose proof D_square. nra. Qed.

Lemma l2_charpoly :
  charpoly (Exact.J p r) (Exact.K q s) (Exact.L p q r s) (Exact.l2 p q r s) = 0.
Proof. unfold charpoly, Exact.l2, Exact.JK. pose proof D_square. nra. Qed.

End QuadraticForm.

(** ** [transform] on finite inputs, branch by branch *)

Section Branches.

Local Open Scope num_scope.

Variables (m : list num) (this : Ellipse) (p q r s eps : R).
Hypothesis Hma : ma m this = matrix p q r s.
Hypothesis Heps : epsilon this = Fin eps.

Local Abbreviation Jv := (Exact.J p r).
Local Abbreviation Kv := (Exact.K q s).
Local Abbreviation Lv := (Exact.L p q r s).
Local Abbreviation Dv := (Exact.D p q r s).
Local Abbreviation JKv := (Exact.JK p q r s).
Local Abbreviation l1v := (Exact.l1 p q r s).
Local Abbreviation l2v := (Exact.l2 p q r s).

Ltac eval_transform :=
  unfold transform, transform_branch; cbv zeta;
  rewrite Hma, ?D_fin, ?JK_fin, ?J_fin, ?K_fin, ?L_fin, ?l1_fin, ?l2_fin;
  unfold set_ax, set_rx, set_ry; cbn [rx ry ax epsilon];
  rewrite ?Heps; cbn [Num.sub Num.neg Num.add Num.abs];
  rewrite ?(sqrt_fin _ (JK_nonneg p q r s)), ?(sqrt_fin _ (J_nonneg p r)),
    ?(sqrt_fin _ (K_nonneg q s)), ?(sqrt_fin _ (l1_nonneg p q r s)),
    ?(sqrt_fin _ (l2_nonneg p q r s)).

Ltac decide_tests :=
  unfold Num.ge, Num.gt, Num.le, Num.lt;
  repeat match goal with
  | |- context [Rle_dec ?x ?y] => destruct (Rle_dec x y); try lra
  | |- context [Rlt_dec ?x ?y] => destruct (Rlt_dec x y); try lra
  end; cbn [andb orb].

Lemma transform_circle :
  (Dv <= eps)%R ->
  transform_branch m this = Circle /\
  transform m this =
    mkEllipse (Fin (sqrt JKv)) (Fin (sqrt JKv)) (Fin 0) (Fin eps).
Proof. intros H1. eval_transform. decide_tests; done. Qed.

Lemma transform_diagonal :
  (eps < Dv)%R -> (Rabs (Dv + - Rabs (Jv + - Kv)) <= eps)%R ->
  transform_branch m this = Diagonal /\
  transform m this = mkEllipse (Fin (sqrt Jv)) (Fin (sqrt Kv)) (Fin 0) (Fin eps).
Proof. intros H1 H2. eval_transform. decide_tests; done. Qed.

Lemma transform_quarter :
  (eps < Dv)%R -> (eps < Rabs (Dv + - Rabs (Jv + - Kv)))%R ->
  (Rabs Lv <= eps)%R -> (Rabs (l1v + - Kv) <= eps)%R ->
  transform_branch m this = Quarter /\
  transform m this = mkEllipse (Fin (sqrt l2v)) (Fin (sqrt l1v)) (Fin 0) (Fin eps).
Proof. intros H1 H2 H3 H4. eval_transform. decide_tests; done. Qed.

Lemma angle_divisor_fin :
  angle_divisor (matrix p q r s) = Fin (ExactAngle.divisor p q r s).
Proof.
  unfold angle_divisor, ExactAngle.divisor.
  rewrite L_fin, l1_fin, K_fin. cbn [Num.sub Num.neg Num.add Num.abs].
  unfold Rminus. decide_tests; done.
Qed.

Lemma divisor_above_epsilon :
  (0 <= eps)%R -> (eps < Rabs Lv \/ eps < Rabs (l1v + - Kv))%R ->
  (eps < Rabs (ExactAngle.divisor p q r s))%R.
Proof.
  intros H0 H. unfold ExactAngle.divisor, Rminus.
  destruct (Rlt_dec _ _); lra.
Qed.

Lemma Rabs_above_nonzero (u e : R) : (0 <= e)%R -> (e < Rabs u)%R -> u <> 0%R.
Proof. intros He Hu ->. rewrite Rabs_R0 in Hu. lra. Qed.

Lemma angle_quotient_fin :
  (0 <= eps)%R -> (eps < Rabs Lv \/ eps < Rabs (l1v + - Kv))%R ->
  (if Num.abs (Fin Lv) >? Num.abs (Fin l1v - Fin Kv)
   then (Fin l1v - Fin Jv) / Fin Lv
   else Fin Lv / (Fin l1v - Fin Kv))
  = Fin (ExactAngle.quotient p q r s).
Proof.
  intros H0 H. pose proof (divisor_above_epsilon H0 H) as Hd.
  apply Rabs_above_nonzero in Hd; [|done].
  revert Hd. unfold ExactAngle.divisor, ExactAngle.quotient, Rminus.
  cbn [Num.sub Num.neg Num.add Num.abs]. unfold Num.gt, Num.lt.
  destruct (Rlt_dec _ _); intros Hd; by rewrite div_fin.
Qed.

Lemma transform_general :
  (0 <= eps)%R ->
  (eps < Dv)%R -> (eps < Rabs (Dv + - Rabs (Jv + - Kv)))%R ->
  (eps < Rabs Lv \/ eps < Rabs (l1v + - Kv))%R ->
  transform_branch m this = General /\
  transform m this =
    if Rle_dec 0 (ExactAngle.degrees p q r s)
    then mkEllipse (Fin (sqrt l1v)) (Fin (sqrt l2v))
           (Fin (ExactAngle.degrees p q r s)) (Fin eps)
    else mkEllipse (Fin (sqrt l2v)) (Fin (sqrt l1v))
           (Fin (ExactAngle.degrees p q r s + 90)) (Fin eps).
Proof.
  intros H0 H1 H2 H3. pose proof (angle_quotient_fin H0 H3) as Hq.
  cbn [Num.sub Num.neg Num.add Num.abs] in Hq.
  eval_transform. rewrite Hq, torad_fin. cbn [Num.atan].
  rewrite div_fin by (pose proof torad_pos; lra).
  fold (ExactAngle.degrees p q r s).
  cbn [Num.add].
  decide_tests; done.
Qed.

End Branches.

(** The four branches cover every finite input. *)
Lemma transform_cases (m : list num) (this : Ellipse) (p q r s eps : R) :
  ma m this = matrix p q r s -> epsilon this = Fin eps -> 0 <= eps ->
  let Jv := Exact.J p r in
  let Kv := Exact.K q s in
  let Dv := Exact.D p q r s in
  let l1v := Exact.l1 p q r s in
  let l2v := Exact.l2 p q r s in
  let deg := ExactAngle.degrees p q r s in
  (Dv <= eps /\ transform_branch m this = Circle /\
   transform m this =
     mkEllipse (Fin (sqrt (Exact.JK p q r s))) (Fin (sqrt (Exact.JK p q r s)))
       (Fin 0) (Fin eps))
  \/ (eps < Dv /\ transform_branch m this = Diagonal /\
      transform m this = mkEllipse (Fin (sqrt Jv)) (Fin (sqrt Kv)) (Fin 0) (Fin eps))
  \/ (eps < Dv /\ transform_branch m this = Quarter /\
      transform m this = mkEllipse (Fin (sqrt l2v)) (Fin (sqrt l1v)) (Fin 0) (Fin eps))
  \/ (eps < Dv /\ transform_branch m this = General /\
      eps < Rabs (Dv + - Rabs (Jv + - Kv)) /\
      eps < Rabs (ExactAngle.divisor p q r s) /\
      ((0 <= deg /\
        transform m this =
          mkEllipse (Fin (sqrt l1v)) (Fin (sqrt l2v)) (Fin deg) (Fin eps))
       \/ (deg < 0 /\
           transform m this =
             mkEllipse (Fin (sqrt l2v)) (Fin (sqrt l1v)) (Fin (deg + 90)) (Fin eps)))).
Proof.
  intros Hma Heps H0; cbv zeta.
  destruct (Rle_dec (Exact.D p q r s) eps) as [H1|H1].
  { left. split; [done|]. by apply transform_circle. }
  apply Rnot_le_lt in H1. right.
  destruct (Rle_dec (Rabs (Exact.D p q r s + - Rabs (Exact.J p r + - Exact.K q s))) eps)
    as [H2|H2].
  { left. split; [done|]. by apply transform_diagonal. }
  apply Rnot_le_lt in H2. right.
  destruct (Rle_dec (Rabs (Exact.L p q r s)) eps) as [H3|H3];
    [destruct (Rle_dec (Rabs (Exact.l1 p q r s + - Exact.K q s)) eps) as [H4|H4]|].
  { left. split; [done|]. by apply transform_quarter. }
  all: right; split; [done|].
  all: assert (H5 : eps < Rabs (Exact.L p q r s)
                    \/ eps < Rabs (Exact.l1 p q r s + - Exact.K q s)) by lra.
  all: destruct (transform_general m this p q r s eps Hma Heps H0 H1 H2 H5)
         as [Hb Ht].
  all: split; [done|]; split; [done|]; split; [by apply divisor_above_epsilon|].
  all: rewrite Ht; destruct (Rle_dec _ _); [left|right]; split; (done || lra).
Qed.

Lemma degrees_bound (p q r s : R) : -90 < ExactAngle.degrees p q r s < 90.
Proof.
  unfold ExactAngle.degrees.
  pose proof (atan_bound (ExactAngle.quotient p q r s)) as [Hlo Hhi].
  pose proof torad_pos as Hu. pose proof PI_RGT_0 as Hpi.
  set (z := atan _ / (PI / 180)).
  assert (Hz : z * (PI / 180) = atan (ExactAngle.quotient p q r s)).
  { unfold z. field. lra. }
  split; apply (Rmult_lt_reg_r (PI / 180)); try done; rewrite Hz; lra.
Qed.

(** ** Properties of [transform] *)

(** C9. Over exact real arithmetic every square root taken by [transform]
    has a real, non-negative argument, whatever the real inputs: [J], [K],
    their mean [JK], the product of two sums of squares under the root of
    [D], and both eigenvalues [l1] and [l2]; [l2 >= 0] because
    [D <= J + K]. *)
Theorem transform_sqrt_arguments_nonneg (a b c d x y t eps : R) :
  let ma := ma (matrix a b c d) (real_ellipse x y t eps) in
  nonneg (J ma) /\ nonneg (K ma) /\ nonneg (JK ma) /\
  nonneg (discriminant ma) /\ nonneg (l1 ma) /\ nonneg (l2 ma) /\
  JK ma = ((J ma + K ma) / Fin 2)%num /\
  l2 ma = (JK ma - D ma / Fin 2)%num /\
  (D ma <=? J ma + K ma)%num = true.
Proof.
  cbv zeta. rewrite ma_fin.
  set (p := x * _). set (q := x * _). set (r := y * _). set (s := y * _).
  rewrite J_fin, K_fin, JK_fin, discriminant_fin, l1_fin, l2_fin.
  repeat split.
  - apply J_nonneg.
  - apply K_nonneg.
  - apply JK_nonneg.
  - apply discriminant_nonneg.
  - apply l1_nonneg.
  - apply l2_nonneg.
  - rewrite <- J_fin with (q := q) (s := s), <- K_fin with (p := p) (r := r).
    symmetry. apply JK_fin.
  - rewrite <- JK_fin. symmetry. apply l2_fin.
  - rewrite D_fin. apply le_fin, D_le_trace.
Qed.

(** C6. Over exact real arithmetic [D] is the difference [l1 - l2] of the
    two eigenvalues of [S = ma * transpose(ma)]: both [l1] and [l2] are roots
    of the characteristic polynomial of [S], and
    [D^2 = (J - K)^2 + 4 L^2]. *)
Theorem D_is_eigenvalue_difference (a b c d x y t eps : R) :
  let ma := ma (matrix a b c d) (real_ellipse x y t eps) in
  exists j k l dv v1 v2 : R,
    J ma = Fin j /\ K ma = Fin k /\ L ma = Fin l /\
    D ma = Fin dv /\ l1 ma = Fin v1 /\ l2 ma = Fin v2 /\
    0 <= dv /\
    dv = v1 - v2 /\
    dv * dv = (j - k) * (j - k) + 4 * (l * l) /\
    charpoly j k l v1 = 0 /\ charpoly j k l v2 = 0.
Proof.
  cbv zeta. rewrite ma_fin.
  set (p := x * _). set (q := x * _). set (r := y * _). set (s := y * _).
  exists (Exact.J p r), (Exact.K q s), (Exact.L p q r s), (Exact.D p q r s),
    (Exact.l1 p q r s), (Exact.l2 p q r s).
  rewrite J_fin, K_fin, L_fin, D_fin, l1_fin, l2_fin.
  repeat split.
  - apply D_nonneg.
  - unfold Exact.l1, Exact.l2. lra.
  - apply D_square.
  - apply l1_charpoly.
  - apply l2_charpoly.
Qed.


(** ** The receiver and its tolerance *)

Ltac split_ifs :=
  repeat match goal with
  | |- context [if ?b then _ else _] => destruct b
  end.

Lemma transform_epsilon (m : list num) (e : Ellipse) :
  epsilon (transform m e) = epsilon e.
Proof. unfold transform; cbv zeta. split_ifs; reflexivity. Qed.

Lemma canonicalise_epsilon (e : Ellipse) : epsilon (canonicalise e) = epsilon e.
Proof. unfold canonicalise; cbv zeta. split_ifs; reflexivity. Qed.

Lemma normalise_epsilon (dx dy : num) (e : Ellipse) :
  epsilon (normalise dx dy e) = epsilon e.
Proof.
  unfold normalise; cbv zeta.
  split_ifs; cbn [epsilon set_rx set_ry]; apply canonicalise_epsilon.
Qed.

(** C8. [transform] and [normalise] mutate the receiver in place and return
    it: the reference returned is the receiver, every other object of the
    store is untouched, and the receiver's [epsilon] is the one it had before
    the call; this holds for all arguments, NaN and the infinities
    included. *)
Theorem methods_return_receiver (m : list num) (dx dy : num)
    (this : loc) (h : heap) (e : Ellipse) :
  h !! this = Some e ->
  (exists e' : Ellipse,
     transform_method m this h = Some (this, <[this := e']> h) /\
     epsilon e' = epsilon e) /\
  (exists e' : Ellipse,
     normalise_method dx dy this h = Some (this, <[this := e']> h) /\
     epsilon e' = epsilon e).
Proof.
  intros Hthis. unfold transform_method, normalise_method, method.
  rewrite Hthis; cbn. split; eexists; (split; [reflexivity|]).
  - apply transform_epsilon.
  - apply normalise_epsilon.
Qed.

Lemma methods_return_receiver_witness :
  (exists e' : Ellipse,
     transform_method (matrix 1 0 0 1) 1%positive
       {[ 1%positive := real_ellipse 2 1 0 (1 / 10) ]}
     = Some (1%positive,
             <[1%positive := e']> {[ 1%positive := real_ellipse 2 1 0 (1 / 10) ]}) /\
     epsilon e' = epsilon (real_ellipse 2 1 0 (1 / 10))) /\
  (exists e' : Ellipse,
     normalise_method (Fin 3) (Fin 0) 1%positive
       {[ 1%positive := real_ellipse 2 1 0 (1 / 10) ]}
     = Some (1%positive,
             <[1%positive := e']> {[ 1%positive := real_ellipse 2 1 0 (1 / 10) ]}) /\
     epsilon e' = epsilon (real_ellipse 2 1 0 (1 / 10))).
Proof.
  apply (methods_return_receiver (matrix 1 0 0 1) (Fin 3) (Fin 0) 1%positive
           {[ 1%positive := real_ellipse 2 1 0 (1 / 10) ]}
           (real_ellipse 2 1 0 (1 / 10))).
  reflexivity.
Defined.

(** ** [normalise] on finite inputs *)

Section Remainder.

Lemma rem_fin (x y : R) : y <> 0 -> (Fin x mod Fin y)%num = Fin (fmod x y).
Proof. intros Hy. unfold Num.rem. destruct (Req_dec_T y 0); [done | reflexivity]. Qed.

Lemma quotient_nonneg (x y : R) : 0 <= x -> 0 < y -> 0 <= x / y.
Proof.
  intros Hx Hy. apply Rmult_le_pos; [done|].
  left. by apply Rinv_0_lt_compat.
Qed.

Lemma fmod_nonneg (x y : R) : 0 < y -> 0 <= x -> 0 <= fmod x y < y.
Proof.
  intros Hy Hx. unfold fmod, Num.Rtrunc.
  assert (Hq : 0 <= x / y) by (apply quotient_nonneg; lra).
  destruct (Rle_dec 0 (x / y)) as [_|]; [|lra].
  destruct (base_Int_part (x / y)) as [Hlo Hhi].
  assert (Hxy : x = x / y * y) by (field; lra).
  set (n := IZR (Int_part (x / y))) in *.
  split; nra.
Qed.

Lemma fmod_neg (x y : R) : 0 < y -> x < 0 -> - y < fmod x y <= 0.
Proof.
  intros Hy Hx. unfold fmod, Num.Rtrunc.
  assert (Hxy : x = x / y * y) by (field; lra).
  assert (Hq : x / y < 0).
  { apply Rnot_le_lt; intros Hge. nra. }
  destruct (Rle_dec 0 (x / y)) as [|_]; [lra|].
  destruct (base_Int_part (- (x / y))) as [Hlo Hhi].
  rewrite opp_IZR.
  set (n := IZR (Int_part (- (x / y)))) in *.
  split; nra.
Qed.

Lemma fmod_small (x y : R) : 0 <= x < y -> fmod x y = x.
Proof.
  intros [Hx Hy]. unfold fmod, Num.Rtrunc.
  assert (Hq : 0 <= x / y < 1).
  { split; [apply quotient_nonneg; lra|].
    apply (Rmult_lt_reg_r y); [lra|]. replace (x / y * y) with x by (field; lra). lra. }
  destruct (Rle_dec 0 (x / y)) as [_|]; [|lra].
  rewrite <- (Int_part_spec (x / y) 0); [lra|]. simpl. lra.
Qed.

Lemma half_turn_bound (t : R) : 0 <= half_turn t < 180.
Proof.
  unfold half_turn.
  destruct (Rle_dec 0 t) as [Ht|Ht].
  - pose proof (fmod_nonneg t 180 ltac:(lra) Ht).
    destruct (Rlt_dec (fmod t 180) 0); lra.
  - pose proof (fmod_neg t 180 ltac:(lra) ltac:(lra)).
    destruct (Rlt_dec (fmod t 180) 0); lra.
Qed.

Lemma half_turn_small (t : R) : 0 <= t < 180 -> half_turn t = t.
Proof.
  intros Ht. unfold half_turn. rewrite fmod_small by done.
  destruct (Rlt_dec t 0); lra.
Qed.

End Remainder.

Section Canonicalise.

Variables x y t eps : R.

Lemma canonicalise_circle :
  Rabs (Rabs x - Rabs y) <= eps ->
  canonicalise (real_ellipse x y t eps) =
    real_ellipse ((Rabs x + Rabs y) / 2) ((Rabs x + Rabs y) / 2) 0 eps.
Proof.
  intros H. unfold canonicalise, real_ellipse, set_rx, set_ry, set_ax; cbn.
  unfold Rminus in H. destruct (Rle_dec _ _); [|lra].
  destruct (Req_dec_T 2 0); [lra | reflexivity].
Qed.

Lemma canonicalise_ellipse :
  eps < Rabs (Rabs x - Rabs y) ->
  canonicalise (real_ellipse x y t eps) =
    if Rle_dec 90 (half_turn t)
    then real_ellipse (Rabs y) (Rabs x) (half_turn t - 90) eps
    else real_ellipse (Rabs x) (Rabs y) (half_turn t) eps.
Proof.
  intros H. unfold canonicalise, real_ellipse, set_rx, set_ry, set_ax; cbn.
  unfold Rminus in H. destruct (Rle_dec _ _); [lra|].
  destruct (Req_dec_T 180 0); [lra|]. fold (fmod t 180).
  unfold half_turn, Num.ge, Num.lt.
  destruct (Rlt_dec (fmod t 180) 0); cbn; destruct (Rle_dec _ _); reflexivity.
Qed.

End Canonicalise.

Section Scale.

Variables dx dy x0 y0 t0 eps : R.
Hypothesis Hx0 : x0 <> 0.
Hypothesis Hy0 : y0 <> 0.

Lemma scale_factor_fin :
  scale_factor (Fin dx) (Fin dy) (real_ellipse x0 y0 t0 eps)
  = Fin (ExactScale.k dx dy x0 y0 t0).
Proof.
  unfold scale_factor; cbv zeta. rewrite torad_fin.
  cbn [real_ellipse rx ry ax Num.neg Num.mul Num.cos Num.sin Num.sub Num.add].
  rewrite !div_fin by done. cbn [Num.mul Num.add].
  rewrite sqrt_fin by apply sum_squares_nonneg.
  reflexivity.
Qed.

Lemma k_nonneg : 0 <= ExactScale.k dx dy x0 y0 t0.
Proof. apply sqrt_pos. Qed.

Lemma k_square :
  ExactScale.k dx dy x0 y0 t0 * ExactScale.k dx dy x0 y0 t0 =
  ExactScale.ndx dx dy x0 t0 * ExactScale.ndx dx dy x0 t0
  + ExactScale.ndy dx dy y0 t0 * ExactScale.ndy dx dy y0 t0.
Proof. unfold ExactScale.k. apply sqrt_sqrt, sum_squares_nonneg. Qed.

(** Once the radii are multiplied by [k > 1] the vector is on the ellipse. *)
Lemma k_after_scaling :
  1 < ExactScale.k dx dy x0 y0 t0 ->
  ExactScale.k dx dy (x0 * ExactScale.k dx dy x0 y0 t0)
    (y0 * ExactScale.k dx dy x0 y0 t0) t0 = 1.
Proof.
  intros Hk. pose proof k_square as Hsq.
  set (kv := ExactScale.k dx dy x0 y0 t0) in *.
  unfold ExactScale.k at 1. apply sqrt_lem_1; [apply sum_squares_nonneg | lra |].
  assert (Hndx : ExactScale.ndx dx dy (x0 * kv) t0 = ExactScale.ndx dx dy x0 t0 / kv).
  { unfold ExactScale.ndx. field. split; lra. }
  assert (Hndy : ExactScale.ndy dx dy (y0 * kv) t0 = ExactScale.ndy dx dy y0 t0 / kv).
  { unfold ExactScale.ndy. field. split; lra. }
  rewrite Hndx, Hndy.
  set (u := ExactScale.ndx dx dy x0 t0) in *.
  set (v := ExactScale.ndy dx dy y0 t0) in *.
  replace (u / kv * (u / kv) + v / kv * (v / kv))
    with ((u * u + v * v) / (kv * kv)) by (field; lra).
  rewrite <- Hsq. field. lra.
Qed.

Lemma normalise_scale (e : Ellipse) :
  canonicalise e = real_ellipse x0 y0 t0 eps ->
  dx <> 0 \/ dy <> 0 ->
  normalise (Fin dx) (Fin dy) e =
    if Rlt_dec 1 (ExactScale.k dx dy x0 y0 t0)
    then real_ellipse (x0 * ExactScale.k dx dy x0 y0 t0)
                      (y0 * ExactScale.k dx dy x0 y0 t0) t0 eps
    else real_ellipse x0 y0 t0 eps.
Proof.
  intros Hc Hv. unfold normalise; cbv zeta. rewrite Hc, scale_factor_fin.
  assert (Hfalsy : Num.not (Fin dx) && Num.not (Fin dy) = false).
  { unfold Num.not. destruct (Req_dec_T dx 0), (Req_dec_T dy 0); try done.
    destruct Hv; done. }
  rewrite Hfalsy. unfold Num.gt, Num.lt.
  destruct (Rlt_dec _ _); reflexivity.
Qed.

End Scale.

Lemma normalise_no_vector (dx dy : num) (e : Ellipse) :
  Num.not dx = true -> Num.not dy = true -> normalise dx dy e = canonicalise e.
Proof. intros Hx Hy. unfold normalise; cbv zeta. by rewrite Hx, Hy. Qed.

Lemma Rabs_nonzero (x : R) : x <> 0 -> 0 < Rabs x.
Proof. apply Rabs_pos_lt. Qed.

(** The two outcomes of lines 119-139 on a finite ellipse. *)
Lemma canonicalise_cases (x y t eps : R) :
  exists x0 y0 t0 : R,
    canonicalise (real_ellipse x y t eps) = real_ellipse x0 y0 t0 eps /\
    0 <= x0 /\ 0 <= y0 /\
    (x <> 0 -> y <> 0 -> x0 <> 0 /\ y0 <> 0) /\
    (Rabs (Rabs x - Rabs y) <= eps ->
     t0 = 0 /\ x0 = (Rabs x + Rabs y) / 2 /\ y0 = (Rabs x + Rabs y) / 2) /\
    (eps < Rabs (Rabs x - Rabs y) ->
     (half_turn t < 90 /\ t0 = half_turn t /\ x0 = Rabs x /\ y0 = Rabs y)
     \/ (90 <= half_turn t /\ t0 = half_turn t - 90 /\ x0 = Rabs y /\ y0 = Rabs x)).
Proof.
  pose proof (Rabs_pos x) as Hx. pose proof (Rabs_pos y) as Hy.
  destruct (Rle_dec (Rabs (Rabs x - Rabs y)) eps) as [Hc|Hc].
  - exists ((Rabs x + Rabs y) / 2), ((Rabs x + Rabs y) / 2), 0.
    split_and!; try lra.
    + by apply canonicalise_circle.
    + intros Hx0 Hy0; apply Rabs_nonzero in Hx0; split; lra.
  - apply Rnot_le_lt in Hc. rewrite canonicalise_ellipse by done.
    destruct (Rle_dec 90 (half_turn t)) as [Hq|Hq]; eexists _, _, _;
      split_and!; try reflexivity; try lra.
    all: intros Hx0 Hy0; apply Rabs_nonzero in Hx0, Hy0; split; lra.
Qed.

(** The scale step multiplies both canonical radii by one factor [k >= 1]. *)
Lemma normalise_outcome (e : Ellipse) (x0 y0 t0 eps dx dy : R) :
  canonicalise e = real_ellipse x0 y0 t0 eps ->
  0 <= x0 -> 0 <= y0 ->
  (dx = 0 /\ dy = 0) \/ (x0 <> 0 /\ y0 <> 0) ->
  exists k : R,
    1 <= k /\ (dx = 0 /\ dy = 0 -> k = 1) /\
    normalise (Fin dx) (Fin dy) e = real_ellipse (x0 * k) (y0 * k) t0 eps.
Proof.
  intros Hc Hx0 Hy0 Hdom.
  assert (Hone : real_ellipse (x0 * 1) (y0 * 1) t0 eps = real_ellipse x0 y0 t0 eps)
    by (by rewrite !Rmult_1_r).
  destruct (Req_dec_T dx 0) as [Hdx|Hdx]; [destruct (Req_dec_T dy 0) as [Hdy|Hdy]|].
  { exists 1. rewrite normalise_no_vector, Hc by (by apply not_fin).
    split_and!; [lra | done | done]. }
  all: assert (Hv : dx <> 0 \/ dy <> 0) by tauto.
  all: assert (Hr : x0 <> 0 /\ y0 <> 0) by (destruct Hdom as [[? ?]|?]; [lra | done]).
  all: rewrite (normalise_scale dx dy x0 y0 t0 eps (proj1 Hr) (proj2 Hr) _ Hc Hv).
  all: destruct (Rlt_dec 1 (ExactScale.k dx dy x0 y0 t0)) as [Hk|Hk].
  all: try (exists (ExactScale.k dx dy x0 y0 t0); split_and!; [lra | lra | done]).
  all: exists 1; split_and!; [lra | lra | done].
Qed.

(** ** Properties of [normalise] *)

(** The scale step multiplies both canonical radii by [max(1, k)]. *)
Lemma normalise_scaled (e : Ellipse) (x0 y0 t0 eps dx dy : R) :
  canonicalise e = real_ellipse x0 y0 t0 eps ->
  x0 <> 0 -> y0 <> 0 -> dx <> 0 \/ dy <> 0 ->
  exists kf : R,
    scale_factor (Fin dx) (Fin dy) (canonicalise e) = Fin kf /\
    normalise (Fin dx) (Fin dy) e
      = real_ellipse (x0 * Rmax 1 kf) (y0 * Rmax 1 kf) t0 eps.
Proof.
  intros Hc Hx0 Hy0 Hv. exists (ExactScale.k dx dy x0 y0 t0).
  rewrite Hc, scale_factor_fin by done. split; [done|].
  rewrite (normalise_scale dx dy x0 y0 t0 eps Hx0 Hy0 _ Hc Hv).
  destruct (Rlt_dec 1 (ExactScale.k dx dy x0 y0 t0)) as [Hk|Hk].
  - by rewrite Rmax_right by lra.
  - rewrite Rmax_left by lra. by rewrite !Rmult_1_r.
Qed.

(** C5, as amended.  Over exact real arithmetic, for every real ellipse and
    every real vector [(dx,dy)] that is zero, or given to an ellipse whose
    radii after the canonicalisation steps are not zero: after
    [normalise(dx,dy)] both radii are real and non-negative.  They are the
    canonical radii times [k], where [k = 1] when no vector is given and
    [k = max(1, kf)] otherwise, [kf] being the factor the scale step
    computes.  If the absolute radii are within [epsilon] of each other the
    result is a circle with [ax = 0] and [rx = ry = k * (|rx|+|ry|)/2].
    Otherwise [ax] lies in [[0, 90)]: it is [ax % 180], plus 180 when
    negative, minus 90 with the radii exchanged when that is at least 90. *)
Theorem normalise_canonical (x y t eps dx dy : R) :
  let e := real_ellipse x y t eps in
  (dx = 0 /\ dy = 0)
  \/ (rx (canonicalise e) <> Fin 0 /\ ry (canonicalise e) <> Fin 0) ->
  exists x' y' t' k : R,
    normalise (Fin dx) (Fin dy) e = real_ellipse x' y' t' eps /\
    0 <= x' /\ 0 <= y' /\
    1 <= k /\ (dx = 0 /\ dy = 0 -> k = 1) /\
    (dx <> 0 \/ dy <> 0 ->
     exists kf : R,
       scale_factor (Fin dx) (Fin dy) (canonicalise e) = Fin kf /\ k = Rmax 1 kf) /\
    (Rabs (Rabs x - Rabs y) <= eps ->
     t' = 0 /\ x' = y' /\ x' = k * ((Rabs x + Rabs y) / 2)) /\
    (eps < Rabs (Rabs x - Rabs y) ->
     0 <= t' < 90 /\ 0 <= half_turn t < 180 /\
     ((half_turn t < 90 /\ t' = half_turn t /\
       x' = k * Rabs x /\ y' = k * Rabs y)
      \/ (90 <= half_turn t /\ t' = half_turn t - 90 /\
          x' = k * Rabs y /\ y' = k * Rabs x))).
Proof.
  cbv zeta.
  destruct (canonicalise_cases x y t eps)
    as (x0 & y0 & t0 & Hc & Hx0 & Hy0 & _ & Hcircle & Hell).
  rewrite Hc; cbn [rx ry real_ellipse]. rewrite !fin_nonzero. intros Hdom.
  pose proof (half_turn_bound t) as Hht.
  destruct (Req_dec_T dx 0) as [Hdx|Hdx]; [destruct (Req_dec_T dy 0) as [Hdy|Hdy]|].
  { exists x0, y0, t0, 1. rewrite normalise_no_vector by (by apply not_fin).
    split_and!; try done; try lra; try nra. }
  all: assert (Hv : dx <> 0 \/ dy <> 0) by tauto.
  all: assert (Hr : x0 <> 0 /\ y0 <> 0) by (destruct Hdom as [[? ?]|?]; [lra | done]).
  all: destruct (normalise_scaled _ x0 y0 t0 eps dx dy Hc (proj1 Hr) (proj2 Hr) Hv)
         as (kf & Hkf & ->).
  all: rewrite Hc in Hkf.
  all: pose proof (Rmax_l 1 kf) as Hk.
  all: exists (x0 * Rmax 1 kf), (y0 * Rmax 1 kf), t0, (Rmax 1 kf).
  all: split_and!; try done; try nra; try lra.
  all: try (intros _; by exists kf).
Qed.

(** ** The constructor *)

Lemma powerRZ_10_pos (p : Z) : 0 < powerRZ 10 p.
Proof. apply powerRZ_lt. lra. Qed.

Lemma default_epsilon_value : powerRZ 10 (-7) = / 10000000.
Proof.
  unfold powerRZ. f_equal. change (Pos.to_nat 7) with 7%nat. simpl. lra.
Qed.

Lemma default_epsilon_small : 0 < powerRZ 10 (-7) < 1.
Proof. rewrite default_epsilon_value. lra. Qed.

Lemma Ellipse_new_real (x y t : R) (precision : option Z) :
  exists eps : R,
    0 < eps /\ Ellipse_new (Fin x) (Fin y) (Fin t) precision = real_ellipse x y t eps.
Proof.
  destruct precision as [p|]; eexists; (split; [|reflexivity]); apply powerRZ_10_pos.
Qed.

(** C10, as amended.  For every real ellipse with non-zero radii and every
    real vector [(dx,dy)] not both zero, the scale step never shrinks the
    ellipse: with [(rx0, ry0)] the radii after the canonicalisation steps and
    [k] the factor computed from them, the final radii are [rx0 * k] and
    [ry0 * k] when [k > 1] and [rx0], [ry0] when [k <= 1]; in both cases
    [rx >= rx0] and [ry >= ry0]. *)
Theorem scaling_never_shrinks (x y t eps dx dy : R) :
  x <> 0 -> y <> 0 -> dx <> 0 \/ dy <> 0 ->
  let e := real_ellipse x y t eps in
  exists x0 y0 t0 k x' y' : R,
    canonicalise e = real_ellipse x0 y0 t0 eps /\
    scale_factor (Fin dx) (Fin dy) (canonicalise e) = Fin k /\
    normalise (Fin dx) (Fin dy) e = real_ellipse x' y' t0 eps /\
    x0 <= x' /\ y0 <= y' /\
    (1 < k -> x' = x0 * k /\ y' = y0 * k) /\
    (k <= 1 -> x' = x0 /\ y' = y0).
Proof.
  intros Hx Hy Hv; cbv zeta.
  destruct (canonicalise_cases x y t eps)
    as (x0 & y0 & t0 & Hc & Hx0 & Hy0 & Hnz & _).
  destruct (Hnz Hx Hy) as [Hx0' Hy0'].
  rewrite (normalise_scale dx dy x0 y0 t0 eps Hx0' Hy0' _ Hc Hv), Hc.
  rewrite scale_factor_fin by done.
  destruct (Rlt_dec 1 (ExactScale.k dx dy x0 y0 t0)) as [Hk|Hk];
    eexists x0, y0, t0, _, _, _; split_and!; try reflexivity; try nra; lra.
Qed.

Lemma scaling_never_shrinks_witness :
  exists x0 y0 t0 k x' y' : R,
    canonicalise (real_ellipse 5 3 0 (/ 10000000))
      = real_ellipse x0 y0 t0 (/ 10000000) /\
    scale_factor (Fin 10) (Fin 0) (canonicalise (real_ellipse 5 3 0 (/ 10000000)))
      = Fin k /\
    normalise (Fin 10) (Fin 0) (real_ellipse 5 3 0 (/ 10000000))
      = real_ellipse x' y' t0 (/ 10000000) /\
    x0 <= x' /\ y0 <= y' /\
    (1 < k -> x' = x0 * k /\ y' = y0 * k) /\
    (k <= 1 -> x' = x0 /\ y' = y0).
Proof.
  apply (scaling_never_shrinks 5 3 0 (/ 10000000) 10 0); [lra | lra | left; lra].
Defined.

(** ** Concrete runs *)

Section Runs.

Local Open Scope num_scope.

Lemma cos_zero_degrees : cos (0 * (PI / 180)) = 1%R.
Proof. rewrite Rmult_0_l. apply cos_0. Qed.

Lemma sin_zero_degrees : sin (- 0 * (PI / 180)) = 0%R.
Proof. rewrite Ropp_0, Rmult_0_l. apply sin_0. Qed.

Lemma signed_zero (pos : bool) (z : num) : Num.signed pos 0 z = z.
Proof. unfold Num.signed. destruct (Req_dec_T 0 0); done. Qed.

Lemma signed_positive (pos : bool) (y : R) (z : num) :
  (0 < y)%R -> Num.signed pos y z = if pos then PInf else NInf.
Proof.
  intros Hy. unfold Num.signed.
  destruct (Req_dec_T y 0); [lra|]. destruct (Rlt_dec 0 y); [done | lra].
Qed.

Lemma div_by_zero (x : R) : (0 < x)%R -> Fin x / Fin 0 = PInf.
Proof.
  intros Hx. unfold Num.div. destruct (Req_dec_T 0 0); [|done].
  by apply signed_positive.
Qed.

(** On an axis-aligned ellipse the rotation of [(dx,dy)] is the identity. *)
Lemma scale_factor_axis (dx dy : R) (a b eps : num) :
  scale_factor (Fin dx) (Fin dy) (mkEllipse a b (Fin 0) eps) =
  Num.sqrt ((Fin dx / a) * (Fin dx / a) + (Fin dy / b) * (Fin dy / b)).
Proof.
  unfold scale_factor; cbv zeta. rewrite torad_fin.
  cbn [rx ry ax Num.neg Num.mul Num.cos Num.sin Num.sub Num.add].
  rewrite cos_zero_degrees, sin_zero_degrees.
  replace (dx * 1 + - (dy * 0))%R with dx by lra.
  replace (dx * 0 + dy * 1)%R with dy by lra.
  reflexivity.
Qed.

Lemma canonicalise_axis (x y eps : R) :
  (eps < Rabs (Rabs x - Rabs y))%R ->
  canonicalise (real_ellipse x y 0 eps) = real_ellipse (Rabs x) (Rabs y) 0 eps.
Proof.
  intros H. rewrite canonicalise_ellipse by done.
  rewrite half_turn_small by lra.
  destruct (Rle_dec 90 0); [lra | reflexivity].
Qed.

(** [Ellipse(0, 1, 0).normalise(1, 0)]: the division by [rx = 0] gives
    Infinity, [k] is Infinity, and the radii become NaN and Infinity. *)
Lemma normalise_degenerate_run :
  let e := Ellipse_new (Fin 0) (Fin 1) (Fin 0) None in
  canonicalise e = real_ellipse 0 1 0 (powerRZ 10 (-7)) /\
  Fin 1 / rx (canonicalise e) = PInf /\
  scale_factor (Fin 1) (Fin 0) (canonicalise e) = PInf /\
  normalise (Fin 1) (Fin 0) e = mkEllipse NaN PInf (Fin 0) (Fin (powerRZ 10 (-7))).
Proof.
  cbv zeta. pose proof default_epsilon_small as Heps.
  assert (Hc : canonicalise (Ellipse_new (Fin 0) (Fin 1) (Fin 0) None)
               = real_ellipse 0 1 0 (powerRZ 10 (-7))).
  { unfold Ellipse_new. fold (real_ellipse 0 1 0 (powerRZ 10 (-7))).
    rewrite canonicalise_axis; rewrite Rabs_R0, Rabs_R1; [done|].
    split_Rabs; lra. }
  assert (Hk : scale_factor (Fin 1) (Fin 0) (real_ellipse 0 1 0 (powerRZ 10 (-7)))
               = PInf).
  { unfold real_ellipse. rewrite scale_factor_axis.
    rewrite div_by_zero by lra. rewrite div_fin by lra. reflexivity. }
  split_and!.
  - done.
  - rewrite Hc. cbn [rx real_ellipse]. apply div_by_zero. lra.
  - by rewrite Hc.
  - unfold normalise; cbv zeta. rewrite Hc, Hk.
    assert (Hnot : Num.not (Fin 1) = false).
    { unfold Num.not. destruct (Req_dec_T 1 0); [lra | done]. }
    rewrite Hnot. cbn [andb Num.gt Num.lt].
    unfold set_rx, set_ry, real_ellipse; cbn [rx ry ax epsilon Num.mul].
    rewrite signed_zero, signed_positive by lra. reflexivity.
Qed.

End Runs.

Section ScaledRuns.

Local Open Scope num_scope.

Lemma k_along_x_axis (dx x0 y0 : R) :
  (0 < dx)%R -> (0 < x0)%R -> y0 <> 0%R -> ExactScale.k dx 0 x0 y0 0 = (dx / x0)%R.
Proof.
  intros Hdx Hx0 Hy0.
  unfold ExactScale.k, ExactScale.ndx, ExactScale.ndy.
  rewrite cos_zero_degrees, sin_zero_degrees.
  apply sqrt_lem_1.
  - apply sum_squares_nonneg.
  - apply quotient_nonneg; lra.
  - field. split; lra.
Qed.

(** [Ellipse(1, 1, 0).normalise(2, 0)]: the unit circle is scaled by 2. *)
Lemma normalise_circle_run :
  normalise (Fin 2) (Fin 0) (Ellipse_new (Fin 1) (Fin 1) (Fin 0) None)
  = real_ellipse 2 2 0 (powerRZ 10 (-7)).
Proof.
  pose proof default_epsilon_small as Heps.
  unfold Ellipse_new. fold (real_ellipse 1 1 0 (powerRZ 10 (-7))).
  assert (Hc : canonicalise (real_ellipse 1 1 0 (powerRZ 10 (-7)))
               = real_ellipse 1 1 0 (powerRZ 10 (-7))).
  { rewrite canonicalise_circle by (split_Rabs; lra).
    rewrite Rabs_R1. replace ((1 + 1) / 2)%R with 1%R by lra. done. }
  rewrite (normalise_scale 2 0 1 1 0 _ ltac:(lra) ltac:(lra) _ Hc) by (left; lra).
  rewrite k_along_x_axis by lra.
  destruct (Rlt_dec 1 (2 / 1)); [|lra].
  unfold real_ellipse. do 2 f_equal; lra.
Qed.

(** The example of the specification:
    [Ellipse(5, 3, 0).normalise(10, 0)] has [rx = 10], [ry = 6], [ax = 0]. *)
Example normalise_5_3_run :
  normalise (Fin 10) (Fin 0) (Ellipse_new (Fin 5) (Fin 3) (Fin 0) None)
  = real_ellipse 10 6 0 (powerRZ 10 (-7)).
Proof.
  pose proof default_epsilon_small as Heps.
  unfold Ellipse_new. fold (real_ellipse 5 3 0 (powerRZ 10 (-7))).
  assert (Hc : canonicalise (real_ellipse 5 3 0 (powerRZ 10 (-7)))
               = real_ellipse 5 3 0 (powerRZ 10 (-7))).
  { rewrite canonicalise_axis by (split_Rabs; lra).
    rewrite !Rabs_pos_eq by lra. done. }
  rewrite (normalise_scale 10 0 5 3 0 _ ltac:(lra) ltac:(lra) _ Hc) by (left; lra).
  rewrite k_along_x_axis by lra.
  destruct (Rlt_dec 1 (10 / 5)); [|lra].
  unfold real_ellipse. do 2 f_equal; lra.
Qed.

End ScaledRuns.

(** [Ellipse(5, 3, 0).normalise(10, 0)] is scaled by 2;
    [Ellipse(1, 1, 30).normalise()] is made a circle of angle 0. *)
Lemma normalise_canonical_witness :
  (exists x' y' t' k : R,
     normalise (Fin 10) (Fin 0) (real_ellipse 5 3 0 (/ 10000000))
       = real_ellipse x' y' t' (/ 10000000) /\
     0 <= x' /\ 0 <= y' /\ 1 <= k /\
     (exists kf : R,
        scale_factor (Fin 10) (Fin 0) (canonicalise (real_ellipse 5 3 0 (/ 10000000)))
          = Fin kf /\ k = Rmax 1 kf) /\
     0 <= t' < 90 /\ 0 <= half_turn 0 < 180 /\
     ((half_turn 0 < 90 /\ t' = half_turn 0 /\
       x' = k * Rabs 5 /\ y' = k * Rabs 3)
      \/ (90 <= half_turn 0 /\ t' = half_turn 0 - 90 /\
          x' = k * Rabs 3 /\ y' = k * Rabs 5))) /\
  (exists x' y' t' k : R,
     normalise (Fin 0) (Fin 0) (real_ellipse 1 1 30 (/ 10000000))
       = real_ellipse x' y' t' (/ 10000000) /\
     0 <= x' /\ 0 <= y' /\ k = 1 /\
     t' = 0 /\ x' = y' /\ x' = k * ((Rabs 1 + Rabs 1) / 2)).
Proof.
  split.
  - destruct (normalise_canonical 5 3 0 (/ 10000000) 10 0)
      as (x' & y' & t' & k & Hn & Hx & Hy & Hk & _ & Hkf & _ & He).
    { right. rewrite canonicalise_axis by (split_Rabs; lra).
      cbn [rx ry real_ellipse]. rewrite !fin_nonzero. split; split_Rabs; lra. }
    exists x', y', t', k. repeat (split; [assumption|]).
    split; [apply Hkf; left; lra|]. apply He. split_Rabs; lra.
  - destruct (normalise_canonical 1 1 30 (/ 10000000) 0 0)
      as (x' & y' & t' & k & Hn & Hx & Hy & _ & Hk & _ & Hc & _);
      [left; split; reflexivity|].
    exists x', y', t', k. repeat (split; [assumption|]).
    split; [apply Hk; split; reflexivity|]. apply Hc. split_Rabs; lra.
Defined.

(** ** Degenerate ellipses *)

Lemma isDegenerate_real (x y t eps : R) :
  isDegenerate (real_ellipse x y t eps) = true <-> Rabs x <= eps \/ Rabs y <= eps.
Proof.
  unfold isDegenerate; cbn [real_ellipse rx ry epsilon Num.abs].
  rewrite orb_true_iff, !le_fin. done.
Qed.

(** An ellipse that [isDegenerate] does not flag has two non-zero radii, which
    is what the scale step of [normalise] needs. *)
Lemma not_degenerate_nonzero (x y t eps : R) :
  0 <= eps -> isDegenerate (real_ellipse x y t eps) = false -> x <> 0 /\ y <> 0.
Proof.
  intros H0 Hd. apply not_true_iff_false in Hd. rewrite isDegenerate_real in Hd.
  split; intros ->; apply Hd; rewrite Rabs_R0; [left | right]; done.
Qed.

(** The ellipse of the runs below is one [isDegenerate] flags. *)
Lemma zero_radius_is_degenerate :
  isDegenerate (Ellipse_new (Fin 0) (Fin 1) (Fin 0) None) = true.
Proof.
  pose proof default_epsilon_small as Heps.
  apply (isDegenerate_real 0 1 0). left. rewrite Rabs_R0. lra.
Qed.

(** ** Inputs outside the guarantees *)

(** [Ellipse(0, 1, 0).normalise(1, 0)]: the factor recomputed from the final
    radii is NaN, and [NaN <= 1 + epsilon] is false. *)
Lemma containment_fails_on_zero_radius :
  let e' := normalise (Fin 1) (Fin 0) (Ellipse_new (Fin 0) (Fin 1) (Fin 0) None) in
  scale_factor (Fin 1) (Fin 0) e' = NaN /\
  (scale_factor (Fin 1) (Fin 0) e' <=? Fin 1 + epsilon e')%num = false /\
  ~ (exists k' : R, scale_factor (Fin 1) (Fin 0) e' = Fin k').
Proof.
  cbv zeta. destruct normalise_degenerate_run as (_ & _ & _ & ->).
  rewrite scale_factor_axis. cbn. split_and!; [done | done |].
  intros [k' Hk']. discriminate Hk'.
Qed.

(** C10 fails on [Ellipse(0, 1, 0).normalise(1, 0)]: [k] is Infinity, the
    final [rx] is NaN and [ry] is Infinity, so [rx >= rx0] is false and the
    radii are not the canonical radii times a real factor. *)
Lemma scaling_fails_on_zero_radius :
  let e := Ellipse_new (Fin 0) (Fin 1) (Fin 0) None in
  rx (canonicalise e) = Fin 0 /\
  scale_factor (Fin 1) (Fin 0) (canonicalise e) = PInf /\
  rx (normalise (Fin 1) (Fin 0) e) = NaN /\
  (rx (normalise (Fin 1) (Fin 0) e) >=? rx (canonicalise e))%num = false.
Proof.
  cbv zeta. destruct normalise_degenerate_run as (Hc & _ & Hk & Hn).
  rewrite Hn, Hk, Hc. cbn. done.
Qed.

(** [Ellipse(1, 1, 0).normalise(2, 0)]: the radii are within [epsilon] of
    each other, yet the result has [rx = ry = 2], not the mean
    [(|1| + |1|) / 2 = 1]. *)
Lemma circle_mean_fails_when_scaled :
  let e := Ellipse_new (Fin 1) (Fin 1) (Fin 0) None in
  (Num.abs (Num.abs (rx e) - Num.abs (ry e)) <=? epsilon e)%num = true /\
  rx (normalise (Fin 2) (Fin 0) e) = Fin 2 /\
  rx (normalise (Fin 2) (Fin 0) e)
    <> ((Num.abs (rx e) + Num.abs (ry e)) / Fin 2)%num.
Proof.
  cbv zeta. rewrite normalise_circle_run.
  pose proof default_epsilon_small as Heps.
  cbn [Ellipse_new real_ellipse rx ry epsilon Num.abs Num.sub Num.neg Num.add].
  rewrite div_fin by lra. rewrite Rabs_R1.
  split_and!.
  - apply le_fin. split_Rabs; lra.
  - done.
  - intros H. injection H as H. lra.
Qed.

(** ** Divisions *)

(** The angle formula of [transform] divides [angle_dividend] by
    [angle_divisor]. *)
Lemma angle_formula_divisor (ma : list num) :
  (if Num.abs (L ma) >? Num.abs (l1 ma - K ma)
   then (l1 ma - J ma) / L ma
   else L ma / (l1 ma - K ma))%num
  = (angle_dividend ma / angle_divisor ma)%num.
Proof.
  unfold angle_dividend, angle_divisor.
  destruct (Num.gt _ _); reflexivity.
Qed.

(** C3 fails on [Ellipse(0, 1, 0).normalise(1, 0)]: the vector is not zero,
    the divisor [rx] is zero, the quotient is Infinity and so is [k]. *)
Lemma normalise_divides_by_zero :
  let e := Ellipse_new (Fin 0) (Fin 1) (Fin 0) None in
  Num.not (Fin 1) && Num.not (Fin 0) = false /\
  rx (canonicalise e) = Fin 0 /\
  (Fin 1 / rx (canonicalise e))%num = PInf /\
  Num.is_finite (scale_factor (Fin 1) (Fin 0) (canonicalise e)) = false.
Proof.
  cbv zeta. destruct normalise_degenerate_run as (Hc & Hq & Hk & _).
  rewrite Hk. split_and!; try done.
  - unfold Num.not. destruct (Req_dec_T 1 0); [lra | done].
  - by rewrite Hc.
Qed.

(** ** Idempotence of the canonicalisation, for every number *)

Section Idempotence.

Local Open Scope num_scope.

Lemma abs_idempotent (a : num) : Num.abs (Num.abs a) = Num.abs a.
Proof. destruct a; cbn; try done. by rewrite Rabs_Rabsolu. Qed.

Lemma abs_sub_sym (a b : num) : Num.abs (a - b) = Num.abs (b - a).
Proof.
  destruct a, b; cbn; try done.
  f_equal. apply (Rabs_minus_sym x x0).
Qed.

Lemma angle_first_pass (a : num) :
  let a1 := a mod Fin 180 in
  let a2 := if a1 <? Fin 0 then a1 + Fin 180 else a1 in
  if a2 >=? Fin 90 then quarter (a2 - Fin 90) else quarter a2.
Proof.
  cbv zeta. destruct a as [t| | |]; cbn; try done.
  destruct (Req_dec_T 180 0); [lra|]. fold (fmod t 180).
  pose proof (half_turn_bound t) as Hb. unfold half_turn in Hb.
  unfold Num.ge, Num.lt, Num.le.
  destruct (Rlt_dec (fmod t 180) 0); cbn; destruct (Rle_dec _ _); cbn; lra.
Qed.

Lemma angle_second_pass (a : num) :
  quarter a ->
  a mod Fin 180 = a /\ (a <? Fin 0) = false /\ (a >=? Fin 90) = false.
Proof.
  destruct a as [t| | |]; cbn; try done.
  intros Ht. destruct (Req_dec_T 180 0); [lra|].
  fold (fmod t 180). rewrite fmod_small by lra.
  split_and!; [done | apply lt_fin_false; lra | apply le_fin_false; lra].
Qed.

(** A canonical non-circular state is a fixed point. *)
Lemma canonicalise_fixed_ellipse (a b q eps : num) :
  Num.abs a = a -> Num.abs b = b ->
  (Num.abs (a - b) <=? eps) = false -> quarter q ->
  canonicalise (mkEllipse a b q eps) = mkEllipse a b q eps.
Proof.
  intros Ha Hb Htest Hq.
  destruct (angle_second_pass q Hq) as (Hmod & Hneg & Hge).
  unfold canonicalise, set_rx, set_ry, set_ax; cbn [rx ry ax epsilon].
  rewrite Ha, Hb, Htest, Hmod, Hneg; cbn [ax]. by rewrite Hge.
Qed.

(** A circle made by the canonicalisation is a fixed point. *)
Lemma canonicalise_fixed_circle (a b eps : num) :
  Num.abs a = a -> Num.abs b = b ->
  (Num.abs (a - b) <=? eps) = true ->
  canonicalise (mkEllipse ((a + b) / Fin 2) ((a + b) / Fin 2) (Fin 0) eps)
  = mkEllipse ((a + b) / Fin 2) ((a + b) / Fin 2) (Fin 0) eps.
Proof.
  intros Ha Hb Htest.
  assert (H2 : forall z, Num.signed true 2 z = PInf)
    by (intros z; apply signed_positive; lra).
  destruct a as [u| | |], b as [v| | |]; try discriminate.
  - (* two real radii: the mean of the mean with itself is the mean *)
    injection Ha as Ha. injection Hb as Hb.
    pose proof (Rabs_pos u). pose proof (Rabs_pos v).
    cbn [Num.add]. rewrite div_fin by lra.
    set (mv := ((u + v) / 2)%R).
    assert (Hm : Rabs mv = mv) by (apply Rabs_pos_eq; unfold mv; lra).
    assert (Heps : (Fin 0 <=? eps) = true).
    { destruct eps as [e| | |]; try done. apply le_fin.
      apply le_fin in Htest. pose proof (Rabs_pos (u + - v)). lra. }
    unfold canonicalise, set_rx, set_ry, set_ax; cbn [rx ry ax epsilon Num.abs].
    rewrite Hm. cbn [Num.sub Num.neg Num.add Num.abs].
    replace (Rabs (mv + - mv)) with 0%R by (rewrite Rplus_opp_r, Rabs_R0; done).
    rewrite Heps, div_fin by lra.
    replace ((mv + mv) / 2)%R with mv by lra. done.
  - (* an infinite radius: the circle has infinite radii *)
    cbn [Num.add Num.div]. rewrite H2.
    apply canonicalise_fixed_ellipse; try done. cbn. lra.
  - cbn [Num.add Num.div]. rewrite H2.
    apply canonicalise_fixed_ellipse; try done. cbn. lra.
Qed.

Lemma canonicalise_idempotent (e : Ellipse) :
  canonicalise (canonicalise e) = canonicalise e.
Proof.
  destruct e as [x y t eps].
  pose proof (abs_idempotent x) as Hx. pose proof (abs_idempotent y) as Hy.
  pose proof (angle_first_pass t) as Ht. cbv zeta in Ht.
  remember (canonicalise (mkEllipse x y t eps)) as c eqn:Hc.
  unfold canonicalise, set_rx, set_ry, set_ax in Hc; cbn [rx ry ax epsilon] in Hc.
  destruct (Num.abs (Num.abs x - Num.abs y) <=? eps) eqn:Htest.
  - subst c. by apply canonicalise_fixed_circle.
  - destruct (t mod Fin 180 <? Fin 0); cbn [rx ry ax epsilon] in *;
      destruct (_ >=? Fin 90); cbn [rx ry ax epsilon] in Hc; subst c;
      apply canonicalise_fixed_ellipse; try done;
      by rewrite abs_sub_sym.
Qed.

End Idempotence.

(** X17. Over exact real arithmetic [normalise] with no vector is
    idempotent: for every ellipse, real or not, calling it twice gives
    exactly the fields of calling it once, both when the two components are
    zero and when they are omitted. *)
Theorem normalise_idempotent (e : Ellipse) :
  normalise (Fin 0) (Fin 0) (normalise (Fin 0) (Fin 0) e)
    = normalise (Fin 0) (Fin 0) e /\
  normalise NaN NaN (normalise NaN NaN e) = normalise NaN NaN e.
Proof.
  assert (H0 : Num.not (Fin 0) = true) by (by apply not_fin).
  assert (Hz : forall e', normalise (Fin 0) (Fin 0) e' = canonicalise e')
    by (intros e'; by apply normalise_no_vector).
  split.
  - rewrite (Hz e), Hz. apply canonicalise_idempotent.
  - change (canonicalise (canonicalise e) = canonicalise e).
    apply canonicalise_idempotent.
Qed.

(** ** The identity matrix *)

Section IdentityTransform.

Variables x y t eps : R.

Local Abbreviation c := (cos (t * (PI / 180))).
Local Abbreviation s := (sin (t * (PI / 180))).

Lemma identity_ma :
  ma (matrix 1 0 0 1) (real_ellipse x y t eps)
  = matrix (x * c) (x * s) (- (y * s)) (y * c).
Proof. rewrite ma_fin. unfold matrix. repeat f_equal; ring. Qed.

Lemma unit_circle : s * s + c * c = 1.
Proof. pose proof (sin2_cos2 (t * (PI / 180))) as H. unfold Rsqr in H. exact H. Qed.

Lemma identity_J : Exact.J (x * c) (- (y * s)) = x * x * (c * c) + y * y * (s * s).
Proof. unfold Exact.J. ring. Qed.

Lemma identity_K : Exact.K (x * s) (y * c) = x * x * (s * s) + y * y * (c * c).
Proof. unfold Exact.K. ring. Qed.

Lemma identity_L :
  Exact.L (x * c) (x * s) (- (y * s)) (y * c) = (x * x - y * y) * (c * s).
Proof. unfold Exact.L. ring. Qed.

Lemma identity_JK :
  Exact.JK (x * c) (x * s) (- (y * s)) (y * c) = (x * x + y * y) / 2.
Proof.
  unfold Exact.JK. rewrite identity_J, identity_K.
  replace (x * x * (c * c) + y * y * (s * s) + (x * x * (s * s) + y * y * (c * c)))
    with ((x * x + y * y) * (s * s + c * c)) by ring.
  rewrite unit_circle. lra.
Qed.

Lemma identity_D :
  Exact.D (x * c) (x * s) (- (y * s)) (y * c) = Rabs (x * x - y * y).
Proof.
  unfold Exact.D, Exact.discriminant.
  replace ((x * c - y * c) * (x * c - y * c)
           + (- (y * s) + x * s) * (- (y * s) + x * s))
    with ((x - y) * (x - y) * (s * s + c * c)) by ring.
  replace ((x * c + y * c) * (x * c + y * c)
           + (- (y * s) - x * s) * (- (y * s) - x * s))
    with ((x + y) * (x + y) * (s * s + c * c)) by ring.
  rewrite unit_circle.
  replace ((x - y) * (x - y) * 1 * ((x + y) * (x + y) * 1))
    with (Rsqr (x * x - y * y)) by (unfold Rsqr; ring).
  apply sqrt_Rsqr_abs.
Qed.

Lemma quarter_turn_trig : 0 <= t < 90 -> 0 < c /\ 0 <= s.
Proof.
  intros Ht. pose proof PI_RGT_0 as Hpi.
  assert (Hth : 0 <= t * (PI / 180) < PI / 2) by (split; nra).
  split; [apply cos_gt_0 | apply sin_ge_0]; lra.
Qed.

Local Abbreviation p' := (x * c).
Local Abbreviation q' := (x * s).
Local Abbreviation r' := (- (y * s)).
Local Abbreviation s' := (y * c).

Lemma identity_l1_wide : y * y <= x * x -> Exact.l1 p' q' r' s' = x * x.
Proof.
  intros H. unfold Exact.l1. rewrite identity_JK, identity_D.
  rewrite Rabs_pos_eq by lra. lra.
Qed.

Lemma identity_l2_wide : y * y <= x * x -> Exact.l2 p' q' r' s' = y * y.
Proof.
  intros H. unfold Exact.l2. rewrite identity_JK, identity_D.
  rewrite Rabs_pos_eq by lra. lra.
Qed.

Lemma identity_l1_tall : x * x <= y * y -> Exact.l1 p' q' r' s' = y * y.
Proof.
  intros H. unfold Exact.l1. rewrite identity_JK, identity_D.
  rewrite Rabs_left1 by lra. lra.
Qed.

Lemma identity_l2_tall : x * x <= y * y -> Exact.l2 p' q' r' s' = x * x.
Proof.
  intros H. unfold Exact.l2. rewrite identity_JK, identity_D.
  rewrite Rabs_left1 by lra. lra.
Qed.

(** The wider-than-tall ellipse: the quotient is [tan ax]. *)
Lemma identity_quotient_wide :
  y * y < x * x -> 0 < c -> ExactAngle.quotient p' q' r' s' = s / c.
Proof.
  intros Hd Hc. pose proof unit_circle as Hcs.
  assert (Hss : s * s = 1 - c * c) by lra.
  unfold ExactAngle.quotient.
  rewrite identity_l1_wide, identity_J, identity_K, identity_L by lra.
  assert (H1 : x * x - (x * x * (s * s) + y * y * (c * c)) = (x * x - y * y) * (c * c))
    by (rewrite Hss; ring).
  assert (H2 : x * x - (x * x * (c * c) + y * y * (s * s)) = (x * x - y * y) * (s * s))
    by (rewrite Hss; ring).
  rewrite H1, H2.
  destruct (Rlt_dec _ _) as [Hlt|Hge].
  - assert (Hs : s <> 0).
    { intros Hs0. rewrite Hs0, Rmult_0_r, Rmult_0_r, Rabs_R0 in Hlt.
      pose proof (Rabs_pos ((x * x - y * y) * (c * c))). lra. }
    field. split_and!; lra.
  - field. split; lra.
Qed.

(** The taller-than-wide ellipse: the quotient is [- 1 / tan ax]. *)
Lemma identity_quotient_tall :
  x * x < y * y -> 0 < s -> ExactAngle.quotient p' q' r' s' = - c / s.
Proof.
  intros Hd Hs. pose proof unit_circle as Hcs.
  assert (Hss : c * c = 1 - s * s) by lra.
  unfold ExactAngle.quotient.
  rewrite identity_l1_tall, identity_J, identity_K, identity_L by lra.
  assert (H1 : y * y - (x * x * (s * s) + y * y * (c * c)) = (y * y - x * x) * (s * s))
    by (rewrite Hss; ring).
  assert (H2 : y * y - (x * x * (c * c) + y * y * (s * s)) = (y * y - x * x) * (c * c))
    by (rewrite Hss; ring).
  rewrite H1, H2.
  destruct (Rlt_dec _ _) as [Hlt|Hge].
  - assert (Hc : c <> 0).
    { intros Hc0. rewrite Hc0, Rmult_0_l, Rmult_0_r, Rabs_R0 in Hlt.
      pose proof (Rabs_pos ((y * y - x * x) * (s * s))). lra. }
    field. split_and!; lra.
  - field. split; lra.
Qed.

Lemma identity_degrees_wide :
  y * y < x * x -> 0 <= t < 90 -> ExactAngle.degrees p' q' r' s' = t.
Proof.
  intros Hd Ht. destruct (quarter_turn_trig Ht) as [Hc Hs].
  pose proof PI_RGT_0 as Hpi.
  unfold ExactAngle.degrees. rewrite identity_quotient_wide by done.
  change (s / c) with (tan (t * (PI / 180))).
  rewrite atan_tan by (split; nra). field. lra.
Qed.

Lemma identity_degrees_tall :
  x * x < y * y -> 0 <= t < 90 -> 0 < s -> ExactAngle.degrees p' q' r' s' = t - 90.
Proof.
  intros Hd Ht Hs. destruct (quarter_turn_trig Ht) as [Hc _].
  pose proof PI_RGT_0 as Hpi.
  unfold ExactAngle.degrees. rewrite identity_quotient_tall by done.
  assert (Htan : - c / s = tan (t * (PI / 180) - PI / 2)).
  { unfold tan. rewrite sin_minus, cos_minus, cos_PI2, sin_PI2. field. lra. }
  assert (Hpos : 0 < t).
  { destruct (Req_dec_T t 0) as [Heq|Hne]; [|lra].
    rewrite Heq, Rmult_0_l, sin_0 in Hs. lra. }
  rewrite Htan, atan_tan by (split; nra). field. lra.
Qed.

(** Off the axes the sine is not zero once the diagonal test has failed. *)
Lemma identity_off_axis :
  0 <= eps -> 0 <= t < 90 ->
  eps < Rabs (Exact.D p' q' r' s' + - Rabs (Exact.J p' r' + - Exact.K q' s')) ->
  0 < s.
Proof.
  intros H0 Ht H2. destruct (quarter_turn_trig Ht) as [Hc Hs].
  destruct Hs as [Hs|Hs]; [done|]. exfalso.
  pose proof unit_circle as Hcs. rewrite <- Hs in Hcs.
  assert (Hcc : c * c = 1) by lra.
  rewrite identity_D, identity_J, identity_K, <- Hs, Hcc in H2.
  replace (x * x * 1 + y * y * (0 * 0) + - (x * x * (0 * 0) + y * y * 1))
    with (x * x - y * y) in H2 by ring.
  rewrite Rplus_opp_r, Rabs_R0 in H2. lra.
Qed.

End IdentityTransform.

(** [Ellipse(1, 1, 45).transform([1, 0, 0, 1])]: the circle branch is taken
    and the angle 45 becomes 0, a change far above [epsilon]. *)
Lemma identity_resets_circle_angle :
  let e := Ellipse_new (Fin 1) (Fin 1) (Fin 45) None in
  transform (matrix 1 0 0 1) e = real_ellipse 1 1 0 (powerRZ 10 (-7)) /\
  (Num.abs (ax (transform (matrix 1 0 0 1) e) - ax e) <=? epsilon e)%num = false.
Proof.
  cbv zeta. pose proof default_epsilon_small as Heps.
  unfold Ellipse_new. fold (real_ellipse 1 1 45 (powerRZ 10 (-7))).
  pose proof (identity_ma 1 1 45 (powerRZ 10 (-7))) as Hma.
  pose proof (identity_D 1 1 45) as HD.
  pose proof (identity_JK 1 1 45) as HJK.
  replace (1 * 1 - 1 * 1) with 0 in HD by lra. rewrite Rabs_R0 in HD.
  replace ((1 * 1 + 1 * 1) / 2) with 1 in HJK by lra.
  destruct (transform_circle _ _ _ _ _ _ (powerRZ 10 (-7)) Hma eq_refl) as [_ Ht];
    [lra|].
  rewrite Ht, HJK, sqrt_1. split; [done|].
  cbn [ax real_ellipse epsilon Num.sub Num.neg Num.add Num.abs].
  apply le_fin_false. split_Rabs; lra.
Qed.

(** Over the reals the identity matrix gives back the very ellipse it was
    given, when that is in canonical form and [transform] does not round its
    angle to zero. *)
Lemma identity_fixed_point (x y t eps : R) :
  0 <= eps -> 0 <= x -> 0 <= y -> 0 <= t < 90 ->
  let m := matrix 1 0 0 1 in
  let e := real_ellipse x y t eps in
  transform_branch m e = General
  \/ (t = 0 /\ transform_branch m e = Diagonal)
  \/ (t = 0 /\ x = y) ->
  transform m e = e.
Proof.
  intros H0 Hx Hy Ht; cbv zeta; intros Hbranch.
  pose proof (identity_ma x y t eps) as Hma.
  pose proof (identity_D x y t) as HD.
  destruct (transform_cases _ _ _ _ _ _ eps Hma eq_refl H0)
    as [(H1 & Hb & Hr) | [(H1 & Hb & Hr) | [(H1 & Hb & Hr) |
        (H1 & Hb & H2 & _ & Hr)]]];
    rewrite Hb in Hbranch; rewrite HD in H1.
  - (* circle *)
    destruct Hbranch as [?|[[_ ?]|[-> ->]]]; try discriminate.
    rewrite Hr, identity_JK.
    replace ((y * y + y * y) / 2) with (y * y) by lra.
    by rewrite sqrt_square.
  - (* diagonal *)
    destruct Hbranch as [?|[[-> _]|[-> ->]]]; try discriminate.
    + rewrite Hr, identity_J, identity_K.
      rewrite Rmult_0_l, sin_0, cos_0.
      replace (x * x * (1 * 1) + y * y * (0 * 0)) with (x * x) by ring.
      replace (x * x * (0 * 0) + y * y * (1 * 1)) with (y * y) by ring.
      by rewrite !sqrt_square.
    + replace (y * y - y * y) with 0 in H1 by lra. rewrite Rabs_R0 in H1. lra.
  - (* quarter *)
    destruct Hbranch as [?|[[_ ?]|[-> ->]]]; try discriminate.
    replace (y * y - y * y) with 0 in H1 by lra. rewrite Rabs_R0 in H1. lra.
  - (* general *)
    pose proof (identity_off_axis x y t eps H0 Ht H2) as Hs.
    destruct (Rlt_dec (y * y) (x * x)) as [Hw|Hw].
    + rewrite (identity_degrees_wide x y t Hw Ht) in Hr.
      destruct Hr as [[_ ->] | [? _]]; [|lra].
      rewrite identity_l1_wide, identity_l2_wide by lra.
      by rewrite !sqrt_square.
    + assert (Htall : x * x < y * y).
      { destruct (Req_dec_T (x * x) (y * y)) as [Heq|Hne]; [|lra].
        rewrite Heq, Rminus_diag, Rabs_R0 in H1. lra. }
      rewrite (identity_degrees_tall x y t Htall Ht Hs) in Hr.
      destruct Hr as [[? _] | [_ ->]]; [lra|].
      rewrite identity_l1_tall, identity_l2_tall by lra.
      rewrite !sqrt_square by done.
      unfold real_ellipse. do 2 f_equal. lra.
Qed.

(** [Ellipse(5, 3, 45).transform([1, 0, 0, 1])] takes the general branch. *)
Lemma identity_45_general :
  transform_branch (matrix 1 0 0 1) (real_ellipse 5 3 45 (/ 10000000)) = General.
Proof.
  pose proof (identity_ma 5 3 45 (/ 10000000)) as Hma.
  assert (Hangle : 45 * (PI / 180) = PI / 4) by lra.
  pose proof (unit_circle 45) as Hcs.
  assert (Heq : cos (45 * (PI / 180)) = sin (45 * (PI / 180)))
    by (rewrite Hangle, cos_PI4, sin_PI4; done).
  assert (Hss : sin (45 * (PI / 180)) * sin (45 * (PI / 180)) = / 2)
    by (rewrite Heq in Hcs; lra).
  assert (Hcc : cos (45 * (PI / 180)) * cos (45 * (PI / 180)) = / 2)
    by (rewrite Heq; exact Hss).
  assert (Hsc : cos (45 * (PI / 180)) * sin (45 * (PI / 180)) = / 2)
    by (rewrite Heq; exact Hss).
  assert (HD : Exact.D (5 * cos (45 * (PI / 180))) (5 * sin (45 * (PI / 180)))
                 (- (3 * sin (45 * (PI / 180)))) (3 * cos (45 * (PI / 180))) = 16).
  { rewrite identity_D. replace (5 * 5 - 3 * 3) with 16 by lra.
    apply Rabs_pos_eq. lra. }
  assert (HJ : Exact.J (5 * cos (45 * (PI / 180))) (- (3 * sin (45 * (PI / 180)))) = 17)
    by (rewrite identity_J, Hcc, Hss; lra).
  assert (HK : Exact.K (5 * sin (45 * (PI / 180))) (3 * cos (45 * (PI / 180))) = 17)
    by (rewrite identity_K, Hcc, Hss; lra).
  assert (HL : Exact.L (5 * cos (45 * (PI / 180))) (5 * sin (45 * (PI / 180)))
                 (- (3 * sin (45 * (PI / 180)))) (3 * cos (45 * (PI / 180))) = 8)
    by (rewrite identity_L, Hsc; lra).
  eapply (transform_general _ _ _ _ _ _ (/ 10000000) Hma eq_refl).
  - lra.
  - rewrite HD. lra.
  - rewrite HD, HJ, HK. split_Rabs; lra.
  - left. rewrite HL. split_Rabs; lra.
Qed.



(** C2, as amended.  Over exact real arithmetic, the identity matrix leaves
    [(rx, ry, ax)] numerically unchanged, each component within [epsilon] of
    its value before the call, on a real ellipse with [rx, ry >= 0] and
    [0 <= ax < 90] when [transform] takes the general branch, or when
    [ax = 0] and it takes the near-diagonal branch, or when [ax = 0] and
    [rx = ry]. *)
Theorem identity_transform_fixes_canonical (x y t eps : R) :
  0 <= eps -> 0 <= x -> 0 <= y -> 0 <= t < 90 ->
  let m := matrix 1 0 0 1 in
  let e := real_ellipse x y t eps in
  transform_branch m e = General
  \/ (t = 0 /\ transform_branch m e = Diagonal)
  \/ (t = 0 /\ x = y) ->
  exists x' y' t' : R,
    transform m e = real_ellipse x' y' t' eps /\
    Rabs (x' - x) <= eps /\ Rabs (y' - y) <= eps /\ Rabs (t' - t) <= eps.
Proof.
  intros H0 Hx Hy Ht; cbv zeta; intros Hbranch.
  exists x, y, t. rewrite identity_fixed_point by done.
  rewrite !Rminus_diag, Rabs_R0. done.
Qed.

Lemma identity_transform_fixes_canonical_witness :
  exists x' y' t' : R,
    transform (matrix 1 0 0 1) (real_ellipse 5 3 45 (/ 10000000))
      = real_ellipse x' y' t' (/ 10000000) /\
    Rabs (x' - 5) <= / 10000000 /\ Rabs (y' - 3) <= / 10000000 /\
    Rabs (t' - 45) <= / 10000000.
Proof.
  apply (identity_transform_fixes_canonical 5 3 45 (/ 10000000));
    [lra | lra | lra | lra | left; exact identity_45_general].
Defined.

(** X18. Over exact real arithmetic the identity matrix gives back exactly
    the ellipse it was given: [transform([1, 0, 0, 1])] changes no field of
    a real ellipse with [rx, ry >= 0] and [0 <= ax < 90] when it takes the
    general branch, or when [ax = 0] and it takes the near-diagonal branch,
    or when [ax = 0] and [rx = ry]. *)
Theorem identity_transform_exact (x y t eps : R) :
  0 <= eps -> 0 <= x -> 0 <= y -> 0 <= t < 90 ->
  let m := matrix 1 0 0 1 in
  let e := real_ellipse x y t eps in
  transform_branch m e = General
  \/ (t = 0 /\ transform_branch m e = Diagonal)
  \/ (t = 0 /\ x = y) ->
  transform m e = e.
Proof. intros H0 Hx Hy Ht; cbv zeta. by apply identity_fixed_point. Qed.

Lemma identity_transform_exact_witness :
  transform (matrix 1 0 0 1) (real_ellipse 5 3 45 (/ 10000000))
  = real_ellipse 5 3 45 (/ 10000000).
Proof.
  apply (identity_transform_exact 5 3 45 (/ 10000000));
    [lra | lra | lra | lra | left; exact identity_45_general].
Defined.

(** ** [transform] sees the ellipse only through [ma * transpose(ma)] *)

Section SameForm.

Variables (m m' : list num) (e e' : Ellipse).
Variables (p q r s p' q' r' s' eps : R).
Hypothesis Hma : ma m e = matrix p q r s.
Hypothesis Hma' : ma m' e' = matrix p' q' r' s'.
Hypothesis Heps : epsilon e = Fin eps.
Hypothesis Heps' : epsilon e' = Fin eps.
Hypothesis HJ : Exact.J p r = Exact.J p' r'.
Hypothesis HK : Exact.K q s = Exact.K q' s'.
Hypothesis HL : Exact.L p q r s = Exact.L p' q' r' s'.
Hypothesis Hdisc : Exact.discriminant p q r s = Exact.discriminant p' q' r' s'.

Lemma same_form_D : Exact.D p q r s = Exact.D p' q' r' s'.
Proof. unfold Exact.D. by rewrite Hdisc. Qed.

Lemma same_form_JK : Exact.JK p q r s = Exact.JK p' q' r' s'.
Proof. unfold Exact.JK. by rewrite HJ, HK. Qed.

Lemma same_form_l1 : Exact.l1 p q r s = Exact.l1 p' q' r' s'.
Proof. unfold Exact.l1. by rewrite same_form_JK, same_form_D. Qed.

Lemma same_form_l2 : Exact.l2 p q r s = Exact.l2 p' q' r' s'.
Proof. unfold Exact.l2. by rewrite same_form_JK, same_form_D. Qed.

Lemma transform_same_form : transform m e = transform m' e'.
Proof.
  unfold transform; cbv zeta.
  rewrite Hma, Hma', !D_fin, !JK_fin, !J_fin, !K_fin, !L_fin, !l1_fin, !l2_fin.
  unfold set_ax, set_rx, set_ry; cbn [rx ry ax epsilon].
  rewrite Heps, Heps', HJ, HK, HL, same_form_D, same_form_JK, same_form_l1, same_form_l2.
  reflexivity.
Qed.

End SameForm.

(** ** Equivalent descriptions of one ellipse *)

Section Representation.

Variables a b c d x y t eps : R.

Ltac same_form :=
  apply (transform_same_form _ _ _ _ _ _ _ _ _ _ _ _ eps
           (ma_fin _ _ _ _ _ _ _ _) (ma_fin _ _ _ _ _ _ _ _) eq_refl eq_refl);
  unfold Exact.J, Exact.K, Exact.L, Exact.discriminant.

Lemma transform_neg_rx :
  transform (matrix a b c d) (real_ellipse (- x) y t eps)
  = transform (matrix a b c d) (real_ellipse x y t eps).
Proof. same_form; ring. Qed.

Lemma transform_neg_ry :
  transform (matrix a b c d) (real_ellipse x (- y) t eps)
  = transform (matrix a b c d) (real_ellipse x y t eps).
Proof. same_form; ring. Qed.

Lemma half_turn_trig :
  cos ((t + 180) * (PI / 180)) = - cos (t * (PI / 180)) /\
  sin ((t + 180) * (PI / 180)) = - sin (t * (PI / 180)).
Proof.
  replace ((t + 180) * (PI / 180)) with (t * (PI / 180) + PI) by lra.
  split; [apply neg_cos | apply neg_sin].
Qed.

Lemma quarter_turn_shift :
  cos ((t + 90) * (PI / 180)) = - sin (t * (PI / 180)) /\
  sin ((t + 90) * (PI / 180)) = cos (t * (PI / 180)).
Proof.
  replace ((t + 90) * (PI / 180)) with (t * (PI / 180) + PI / 2) by lra.
  rewrite cos_plus, sin_plus, cos_PI2, sin_PI2. split; ring.
Qed.

Lemma transform_add_half_turn :
  transform (matrix a b c d) (real_ellipse x y (t + 180) eps)
  = transform (matrix a b c d) (real_ellipse x y t eps).
Proof.
  destruct half_turn_trig as [Hc Hs].
  same_form; rewrite Hc, Hs; ring.
Qed.

Lemma transform_add_quarter_turn :
  transform (matrix a b c d) (real_ellipse x y (t + 90) eps)
  = transform (matrix a b c d) (real_ellipse y x t eps).
Proof.
  destruct quarter_turn_shift as [Hc Hs].
  same_form; rewrite Hc, Hs; ring.
Qed.

Lemma transform_scale_radii (k : R) :
  transform (matrix (k * a) (k * b) (k * c) (k * d)) (real_ellipse x y t eps)
  = transform (matrix a b c d) (real_ellipse (k * x) (k * y) t eps).
Proof. same_form; ring. Qed.

End Representation.

Section Turns.

Variables a b c d x y eps : R.

Lemma transform_add_half_turns_nat (n : nat) (t : R) :
  transform (matrix a b c d) (real_ellipse x y (t + 180 * INR n) eps)
  = transform (matrix a b c d) (real_ellipse x y t eps).
Proof.
  induction n as [|n IH].
  - cbn. replace (t + 180 * 0) with t by lra. done.
  - rewrite S_INR.
    replace (t + 180 * (INR n + 1)) with (t + 180 * INR n + 180) by lra.
    by rewrite transform_add_half_turn.
Qed.

Lemma transform_add_half_turns (n : Z) (t : R) :
  transform (matrix a b c d) (real_ellipse x y (t + 180 * IZR n) eps)
  = transform (matrix a b c d) (real_ellipse x y t eps).
Proof.
  destruct (Z_le_gt_dec 0 n) as [Hn|Hn].
  - rewrite <- (Z2Nat.id n Hn), <- INR_IZR_INZ.
    apply transform_add_half_turns_nat.
  - rewrite <- (transform_add_half_turns_nat (Z.to_nat (- n)) (t + 180 * IZR n)).
    rewrite INR_IZR_INZ, Z2Nat.id by lia. rewrite opp_IZR.
    do 2 f_equal. unfold real_ellipse. do 2 f_equal. lra.
Qed.

(** [ax % 180], shifted when negative, differs from [ax] by half turns. *)
Lemma half_turn_congruent (t : R) : exists n : Z, half_turn t = t + 180 * IZR n.
Proof.
  unfold half_turn, fmod.
  destruct (Rlt_dec _ _).
  - exists (1 - Num.Rtrunc (t / 180))%Z. rewrite minus_IZR. lra.
  - exists (- Num.Rtrunc (t / 180))%Z. rewrite opp_IZR. lra.
Qed.

Lemma transform_half_turn (t : R) :
  transform (matrix a b c d) (real_ellipse x y (half_turn t) eps)
  = transform (matrix a b c d) (real_ellipse x y t eps).
Proof.
  destruct (half_turn_congruent t) as [n ->]. apply transform_add_half_turns.
Qed.

End Turns.

(** ** More properties of [transform] *)

(** X1. [transform] gives the same result for every description of one
    ellipse with real fields: a radius replaced by its opposite, the angle
    moved by any whole number of half turns, or the angle moved by a quarter
    turn with the two radii exchanged. *)
Theorem transform_representation_independent (a b c d x y t eps : R) (n : Z) :
  let m := matrix a b c d in
  transform m (real_ellipse (- x) y t eps) = transform m (real_ellipse x y t eps) /\
  transform m (real_ellipse x (- y) t eps) = transform m (real_ellipse x y t eps) /\
  transform m (real_ellipse x y (t + 180 * IZR n) eps)
    = transform m (real_ellipse x y t eps) /\
  transform m (real_ellipse y x (t + 90) eps) = transform m (real_ellipse x y t eps).
Proof.
  cbv zeta. split_and!.
  - apply transform_neg_rx.
  - apply transform_neg_ry.
  - apply transform_add_half_turns.
  - apply transform_add_quarter_turn.
Qed.

(** X2. Multiplying the matrix by a real factor [k] has the effect of
    multiplying both radii of the ellipse by [k] before the call. *)
Theorem transform_scaled_matrix (a b c d x y t eps k : R) :
  transform (matrix (k * a) (k * b) (k * c) (k * d)) (real_ellipse x y t eps)
  = transform (matrix a b c d) (real_ellipse (k * x) (k * y) t eps).
Proof. apply transform_scale_radii. Qed.

Lemma transform_abs_radii (a b c d x y t eps : R) :
  transform (matrix a b c d) (real_ellipse (Rabs x) (Rabs y) t eps)
  = transform (matrix a b c d) (real_ellipse x y t eps).
Proof.
  unfold Rabs.
  destruct (Rcase_abs x), (Rcase_abs y);
    rewrite ?transform_neg_rx, ?transform_neg_ry; reflexivity.
Qed.

(** X3. Over exact real arithmetic, unless [normalise] makes the ellipse a
    circle, calling [normalise()] before [transform(m)] does not change what
    [transform(m)] returns: for every real ellipse whose absolute radii
    differ by more than [epsilon], [transform] of the normalised ellipse is
    [transform] of the ellipse itself. *)
Theorem transform_after_normalise (a b c d x y t eps : R) :
  eps < Rabs (Rabs x - Rabs y) ->
  transform (matrix a b c d) (normalise (Fin 0) (Fin 0) (real_ellipse x y t eps))
  = transform (matrix a b c d) (real_ellipse x y t eps).
Proof.
  intros Hne.
  rewrite normalise_no_vector by (by apply not_fin).
  rewrite canonicalise_ellipse by done.
  destruct (Rle_dec 90 (half_turn t)).
  - rewrite <- (transform_add_quarter_turn a b c d (Rabs x) (Rabs y) (half_turn t - 90) eps).
    replace (half_turn t - 90 + 90) with (half_turn t) by lra.
    by rewrite transform_half_turn, transform_abs_radii.
  - by rewrite transform_half_turn, transform_abs_radii.
Qed.

(** ** The axes found by the general branch *)

Section Eigen.

Variables p q r s : R.
Hypothesis Hdiv : ExactAngle.divisor p q r s <> 0.

Local Abbreviation Jv := (Exact.J p r).
Local Abbreviation Kv := (Exact.K q s).
Local Abbreviation Lv := (Exact.L p q r s).
Local Abbreviation l1v := (Exact.l1 p q r s).
Local Abbreviation l2v := (Exact.l2 p q r s).
Local Abbreviation phi := (atan (ExactAngle.quotient p q r s)).

Lemma eigen_sum : l1v + l2v = Jv + Kv.
Proof. unfold Exact.l1, Exact.l2, Exact.JK. lra. Qed.

Lemma eigen_product : (l1v - Jv) * (l1v - Kv) = Lv * Lv.
Proof. pose proof (l1_charpoly p q r s) as H. unfold charpoly in H. lra. Qed.

Lemma phi_cos_pos : 0 < cos phi.
Proof.
  pose proof (atan_bound (ExactAngle.quotient p q r s)) as [Hlo Hhi].
  apply cos_gt_0; lra.
Qed.

Lemma phi_sin : sin phi = ExactAngle.quotient p q r s * cos phi.
Proof.
  pose proof phi_cos_pos as Hc.
  pose proof (tan_atan (ExactAngle.quotient p q r s)) as Ht.
  unfold tan in Ht.
  assert (Hs : sin phi = sin phi / cos phi * cos phi) by (field; lra).
  rewrite Ht in Hs. exact Hs.
Qed.

(** The direction [(cos phi, sin phi)] is an eigenvector for [l1]. *)
Lemma phi_eigenvector :
  (l1v - Jv) * cos phi = Lv * sin phi /\ (l1v - Kv) * sin phi = Lv * cos phi.
Proof.
  pose proof eigen_product as Hprod. rewrite phi_sin.
  set (C := cos phi). clearbody C.
  revert Hdiv. unfold ExactAngle.divisor, ExactAngle.quotient.
  destruct (Rlt_dec _ _); intros Hd.
  - split; [field; done|].
    apply (eq_trans (y := (l1v - Jv) * (l1v - Kv) / Lv * C)); [field; done|].
    rewrite Hprod. field. done.
  - split; [|field; done].
    apply (eq_trans (y := Lv * Lv / (l1v - Kv) * C)); [|field; done].
    rewrite <- Hprod. field. done.
Qed.

Lemma phi_form :
  l1v * (cos phi * cos phi) + l2v * (sin phi * sin phi) = Jv /\
  l1v * (sin phi * sin phi) + l2v * (cos phi * cos phi) = Kv /\
  (l1v - l2v) * (cos phi * sin phi) = Lv.
Proof.
  destruct phi_eigenvector as [H1 H2].
  pose proof eigen_sum as Hsum.
  pose proof (sin2_cos2 phi) as Hcs. unfold Rsqr in Hcs.
  set (C := cos phi) in *. set (S := sin phi) in *.
  set (j := Jv) in *. set (k := Kv) in *. set (l := Lv) in *.
  set (e1 := l1v) in *. set (e2 := l2v) in *.
  assert (He2 : e2 = j + k - e1) by lra.
  assert (Ha : (e1 - j) * (C * C) = l * (C * S)) by (rewrite <- Rmult_assoc, H1; ring).
  assert (Hb : (e1 - k) * (S * S) = l * (C * S)) by (rewrite <- Rmult_assoc, H2; ring).
  split_and!.
  - replace (e1 * (C * C) + e2 * (S * S))
      with (j * (S * S + C * C) + ((e1 - j) * (C * C) - (e1 - k) * (S * S)))
      by (rewrite He2; ring).
    rewrite Hcs, Ha, Hb. ring.
  - replace (e1 * (S * S) + e2 * (C * C))
      with (k * (S * S + C * C) + ((e1 - k) * (S * S) - (e1 - j) * (C * C)))
      by (rewrite He2; ring).
    rewrite Hcs, Ha, Hb. ring.
  - replace ((e1 - e2) * (C * S))
      with ((e1 - j) * C * S + (e1 - k) * S * C) by (rewrite He2; ring).
    rewrite H1, H2.
    replace (l * S * S + l * C * C) with (l * (S * S + C * C)) by ring.
    rewrite Hcs. ring.
Qed.

Lemma degrees_radians :
  ExactAngle.degrees p q r s * (PI / 180) = phi.
Proof. unfold ExactAngle.degrees. pose proof PI_RGT_0. field. lra. Qed.

End Eigen.

(** X4. Over exact real arithmetic, in the general branch the result of
    [transform(m)] describes exactly the image of the ellipse: the symmetric
    matrix [[J, L], [L, K]] built from the result (as [transform] itself
    builds it, under the identity matrix) is the one built from the ellipse
    under [m]. *)
Theorem transform_general_exact (a b c d x y t eps : R) :
  0 <= eps ->
  let m := matrix a b c d in
  let e := real_ellipse x y t eps in
  transform_branch m e = General ->
  let e' := transform m e in
  J (ma (matrix 1 0 0 1) e') = J (ma m e) /\
  K (ma (matrix 1 0 0 1) e') = K (ma m e) /\
  L (ma (matrix 1 0 0 1) e') = L (ma m e).
Proof.
  intros H0; cbv zeta; intros Hb.
  pose proof (ma_fin a b c d x y t eps) as Hma. revert Hma.
  set (p := x * _). set (q := x * _). set (r := y * _). set (s := y * _).
  intros Hma.
  destruct (transform_cases _ _ p q r s eps Hma eq_refl H0)
    as [(_ & Hb' & _) | [(_ & Hb' & _) | [(_ & Hb' & _) |
        (_ & _ & _ & Hd & Hr)]]];
    try (rewrite Hb' in Hb; discriminate).
  assert (Hdiv : ExactAngle.divisor p q r s <> 0)
    by (by apply (Rabs_above_nonzero _ eps)).
  destruct (phi_form p q r s Hdiv) as (HJ & HK & HL).
  pose proof (l1_nonneg p q r s) as Hl1. pose proof (l2_nonneg p q r s) as Hl2.
  rewrite Hma, J_fin, K_fin, L_fin.
  destruct Hr as [[_ ->] | [_ ->]].
  - fold (real_ellipse (sqrt (Exact.l1 p q r s)) (sqrt (Exact.l2 p q r s))
            (ExactAngle.degrees p q r s) eps).
    rewrite identity_ma, J_fin, K_fin, L_fin, identity_J, identity_K, identity_L.
    rewrite !sqrt_sqrt, degrees_radians by done.
    split_and!; f_equal; lra.
  - fold (real_ellipse (sqrt (Exact.l2 p q r s)) (sqrt (Exact.l1 p q r s))
            (ExactAngle.degrees p q r s + 90) eps).
    rewrite identity_ma, J_fin, K_fin, L_fin, identity_J, identity_K, identity_L.
    destruct (quarter_turn_shift (ExactAngle.degrees p q r s)) as [-> ->].
    rewrite !sqrt_sqrt, degrees_radians by done.
    set (C := cos _) in *. set (S := sin _) in *.
    split_and!; f_equal; [rewrite <- HJ | rewrite <- HK | rewrite <- HL]; ring.
Qed.

(** [Ellipse(5, 3, 45).transform([1, 0, 0, 1])] is in the general branch. *)
Lemma transform_general_exact_witness :
  J (ma (matrix 1 0 0 1)
        (transform (matrix 1 0 0 1) (real_ellipse 5 3 45 (/ 10000000))))
    = J (ma (matrix 1 0 0 1) (real_ellipse 5 3 45 (/ 10000000))) /\
  K (ma (matrix 1 0 0 1)
        (transform (matrix 1 0 0 1) (real_ellipse 5 3 45 (/ 10000000))))
    = K (ma (matrix 1 0 0 1) (real_ellipse 5 3 45 (/ 10000000))) /\
  L (ma (matrix 1 0 0 1)
        (transform (matrix 1 0 0 1) (real_ellipse 5 3 45 (/ 10000000))))
    = L (ma (matrix 1 0 0 1) (real_ellipse 5 3 45 (/ 10000000))).
Proof.
  apply (transform_general_exact 1 0 0 1 5 3 45 (/ 10000000));
    [lra | exact identity_45_general].
Defined.

Lemma transform_after_normalise_witness :
  transform (matrix 2 1 0 3)
    (normalise (Fin 0) (Fin 0) (real_ellipse (- 5) 3 200 (/ 10000000)))
  = transform (matrix 2 1 0 3) (real_ellipse (- 5) 3 200 (/ 10000000)).
Proof.
  apply (transform_after_normalise 2 1 0 3 (- 5) 3 200 (/ 10000000)).
  split_Rabs; lra.
Defined.

(** ** Trace and determinant *)

Section TraceDeterminant.

Variables p q r s : R.

Lemma eigen_determinant :
  Exact.l1 p q r s * Exact.l2 p q r s = (p * s - r * q) * (p * s - r * q).
Proof.
  pose proof (D_square p q r s) as HD.
  unfold Exact.l1, Exact.l2, Exact.JK.
  replace ((Exact.J p r + Exact.K q s) / 2 + Exact.D p q r s / 2)
    with ((Exact.J p r + Exact.K q s + Exact.D p q r s) / 2) by lra.
  replace ((Exact.J p r + Exact.K q s) / 2 - Exact.D p q r s / 2)
    with ((Exact.J p r + Exact.K q s - Exact.D p q r s) / 2) by lra.
  replace ((Exact.J p r + Exact.K q s + Exact.D p q r s) / 2
           * ((Exact.J p r + Exact.K q s - Exact.D p q r s) / 2))
    with (((Exact.J p r + Exact.K q s) * (Exact.J p r + Exact.K q s)
           - Exact.D p q r s * Exact.D p q r s) / 4) by lra.
  rewrite HD. unfold Exact.J, Exact.K, Exact.L. field.
Qed.

Lemma sqrt_eigen_product :
  sqrt (Exact.l1 p q r s) * sqrt (Exact.l2 p q r s) = Rabs (p * s - r * q).
Proof.
  rewrite <- sqrt_mult by (apply l1_nonneg || apply l2_nonneg).
  rewrite eigen_determinant. apply sqrt_Rsqr_abs.
Qed.

Lemma Rabs_le_of_square (u v : R) : 0 <= v -> u * u <= v * v -> Rabs u <= v.
Proof.
  intros Hv Huv. apply Rnot_lt_le; intros Hlt.
  pose proof (Rabs_pos u) as Hu.
  assert (Hsq : Rabs u * Rabs u = u * u) by (split_Rabs; ring).
  nra.
Qed.

Lemma determinant_le_mean :
  Rabs (p * s - r * q) <= sqrt (Exact.JK p q r s) * sqrt (Exact.JK p q r s).
Proof.
  rewrite sqrt_sqrt by apply JK_nonneg.
  apply Rabs_le_of_square; [apply JK_nonneg|].
  rewrite <- eigen_determinant.
  unfold Exact.l1, Exact.l2. pose proof (D_nonneg p q r s). nra.
Qed.

Lemma determinant_le_diagonal :
  Rabs (p * s - r * q) <= sqrt (Exact.J p r) * sqrt (Exact.K q s).
Proof.
  pose proof (J_nonneg p r) as HJ. pose proof (K_nonneg q s) as HK.
  rewrite <- sqrt_mult by done.
  rewrite <- (sqrt_Rsqr_abs (p * s - r * q)).
  apply sqrt_le_1_alt. unfold Rsqr, Exact.J, Exact.K.
  assert (H : (p * p + r * r) * (q * q + s * s) - (p * s - r * q) * (p * s - r * q)
              = (p * q + r * s) * (p * q + r * s)) by ring.
  pose proof (sum_squares_nonneg (p * q + r * s) 0). lra.
Qed.

End TraceDeterminant.

Lemma ma_determinant (a b c d x y t : R) :
  let c0 := cos (t * (PI / 180)) in
  let s0 := sin (t * (PI / 180)) in
  x * (a * c0 + c * s0) * (y * (- b * s0 + d * c0))
  - y * (- a * s0 + c * c0) * (x * (b * c0 + d * s0))
  = (a * d - c * b) * (x * y).
Proof.
  cbv zeta. pose proof (unit_circle t) as Hcs.
  set (c0 := cos _) in *. set (s0 := sin _) in *.
  replace (x * (a * c0 + c * s0) * (y * (- b * s0 + d * c0))
           - y * (- a * s0 + c * c0) * (x * (b * c0 + d * s0)))
    with ((a * d - c * b) * (x * y) * (s0 * s0 + c0 * c0)) by ring.
  rewrite Hcs. ring.
Qed.

(** X5. Over exact real arithmetic, for real inputs the squared radii of
    the result of [transform] add up to [J + K], the trace of
    [ma * transpose(ma)], whichever branch is taken. *)
Theorem transform_trace (a b c d x y t eps : R) :
  0 <= eps ->
  let m := matrix a b c d in
  let e := real_ellipse x y t eps in
  exists x' y' t' j k : R,
    transform m e = real_ellipse x' y' t' eps /\
    J (ma m e) = Fin j /\ K (ma m e) = Fin k /\
    x' * x' + y' * y' = j + k.
Proof.
  intros H0; cbv zeta.
  pose proof (ma_fin a b c d x y t eps) as Hma. revert Hma.
  set (p := x * _). set (q := x * _). set (r := y * _). set (s := y * _).
  intros Hma. rewrite Hma, J_fin, K_fin.
  pose proof (J_nonneg p r). pose proof (K_nonneg q s).
  pose proof (JK_nonneg p q r s). pose proof (l1_nonneg p q r s).
  pose proof (l2_nonneg p q r s). pose proof (eigen_sum p q r s).
  destruct (transform_cases _ _ p q r s eps Hma eq_refl H0)
    as [(_ & _ & ->) | [(_ & _ & ->) | [(_ & _ & ->) |
        (_ & _ & _ & _ & [(_ & ->) | (_ & ->)])]]];
    eexists _, _, _, _, _; split_and!; try reflexivity;
    rewrite !sqrt_sqrt by done; unfold Exact.JK; lra.
Qed.

Lemma transform_trace_witness :
  exists x' y' t' j k : R,
    transform (matrix 2 1 0 3) (real_ellipse 5 3 30 (/ 10000000))
      = real_ellipse x' y' t' (/ 10000000) /\
    J (ma (matrix 2 1 0 3) (real_ellipse 5 3 30 (/ 10000000))) = Fin j /\
    K (ma (matrix 2 1 0 3) (real_ellipse 5 3 30 (/ 10000000))) = Fin k /\
    x' * x' + y' * y' = j + k.
Proof. apply (transform_trace 2 1 0 3 5 3 30 (/ 10000000)). lra. Defined.

(** X6. Over exact real arithmetic, for real inputs the product of the
    radii returned by [transform] is at least [|det m| * |rx * ry|], and it
    is exactly that in the 90-degree and general branches: there [transform]
    scales the area of the ellipse by the determinant of the matrix, and a
    singular matrix gives a zero radius. *)
Theorem transform_area (a b c d x y t eps : R) :
  0 <= eps ->
  let m := matrix a b c d in
  let e := real_ellipse x y t eps in
  exists x' y' t' : R,
    transform m e = real_ellipse x' y' t' eps /\
    Rabs ((a * d - c * b) * (x * y)) <= x' * y' /\
    (transform_branch m e = Quarter \/ transform_branch m e = General ->
     x' * y' = Rabs ((a * d - c * b) * (x * y))).
Proof.
  intros H0; cbv zeta.
  pose proof (ma_fin a b c d x y t eps) as Hma.
  pose proof (ma_determinant a b c d x y t) as Hdet. cbv zeta in Hdet.
  revert Hma Hdet.
  set (p := x * _). set (q := x * _). set (r := y * _). set (s := y * _).
  intros Hma Hdet. rewrite <- Hdet.
  pose proof (sqrt_eigen_product p q r s) as Hprod.
  pose proof (determinant_le_mean p q r s) as Hmean.
  pose proof (determinant_le_diagonal p q r s) as Hdiag.
  destruct (transform_cases _ _ p q r s eps Hma eq_refl H0)
    as [(_ & Hb & ->) | [(_ & Hb & ->) | [(_ & Hb & ->) |
        (_ & Hb & _ & _ & [(_ & ->) | (_ & ->)])]]];
    rewrite Hb; eexists _, _, _; split_and!; try reflexivity; try lra;
    intros [?|?]; (discriminate || lra).
Qed.

Lemma transform_area_witness :
  exists x' y' t' : R,
    transform (matrix 2 1 0 3) (real_ellipse 5 3 30 (/ 10000000))
      = real_ellipse x' y' t' (/ 10000000) /\
    Rabs ((2 * 3 - 0 * 1) * (5 * 3)) <= x' * y' /\
    (transform_branch (matrix 2 1 0 3) (real_ellipse 5 3 30 (/ 10000000)) = Quarter
     \/ transform_branch (matrix 2 1 0 3) (real_ellipse 5 3 30 (/ 10000000)) = General ->
     x' * y' = Rabs ((2 * 3 - 0 * 1) * (5 * 3))).
Proof. apply (transform_area 2 1 0 3 5 3 30 (/ 10000000)). lra. Defined.

Lemma circle_similarity (u v x t eps : R) :
  0 <= eps ->
  let m := matrix u v (- v) u in
  let e := real_ellipse x x t eps in
  transform_branch m e = Circle /\
  transform m e =
    real_ellipse (Rabs x * sqrt (u * u + v * v)) (Rabs x * sqrt (u * u + v * v)) 0 eps.
Proof.
  intros H0; cbv zeta.
  pose proof (ma_fin u v (- v) u x x t eps) as Hma.
  pose proof (unit_circle t) as Hcs. revert Hma.
  set (c0 := cos _) in *. set (s0 := sin _) in *.
  set (p := x * _). set (q := x * _). set (r := x * _). set (s := x * _).
  intros Hma.
  assert (Hs : s = p) by (unfold s, p; ring).
  assert (Hr : r = - q) by (unfold r, q; ring).
  assert (HD : Exact.D p q r s = 0).
  { unfold Exact.D, Exact.discriminant. rewrite Hs, Hr.
    replace (((p - p) * (p - p) + (- q + q) * (- q + q))
             * ((p + p) * (p + p) + (- q - q) * (- q - q))) with 0 by ring.
    apply sqrt_0. }
  assert (HJK : Exact.JK p q r s = Rsqr x * (u * u + v * v)).
  { unfold Exact.JK, Exact.J, Exact.K. rewrite Hs, Hr.
    replace ((p * p + - q * - q + (q * q + p * p)) / 2)
      with (x * x * (u * u + v * v) * (s0 * s0 + c0 * c0))
      by (unfold p, q; field).
    rewrite Hcs. unfold Rsqr. ring. }
  destruct (transform_circle _ _ _ _ _ _ eps Hma eq_refl) as [Hb ->]; [lra|].
  split; [done|].
  rewrite HJK, sqrt_mult by (apply Rle_0_sqr || apply sum_squares_nonneg).
  by rewrite sqrt_Rsqr_abs.
Qed.





(** ** [transform] and [normalise] together *)

Lemma abs_sqrt (u : R) : Num.abs (Fin (sqrt u)) = Fin (sqrt u).
Proof. cbn. by rewrite Rabs_pos_eq by apply sqrt_pos. Qed.

(** X9. Over exact real arithmetic, [normalise()] leaves the result of
    [transform] as it is whenever [transform] took the near-circle branch or
    returned radii that differ by more than [epsilon]: real inputs,
    [epsilon >= 0]. *)
Theorem normalise_after_transform (a b c d x y t eps : R) :
  0 <= eps ->
  let m := matrix a b c d in
  let e := real_ellipse x y t eps in
  let e' := transform m e in
  transform_branch m e = Circle
  \/ (Num.abs (rx e' - ry e') <=? epsilon e')%num = false ->
  normalise (Fin 0) (Fin 0) e' = e'.
Proof.
  intros H0; cbv zeta.
  rewrite normalise_no_vector by (by apply not_fin).
  pose proof (ma_fin a b c d x y t eps) as Hma. revert Hma.
  set (p := x * _). set (q := x * _). set (r := y * _). set (s := y * _).
  intros Hma.
  pose proof (degrees_bound p q r s) as Hdeg.
  destruct (transform_cases _ _ p q r s eps Hma eq_refl H0)
    as [(_ & Hb & ->) | [(_ & Hb & ->) | [(_ & Hb & ->) |
        (_ & Hb & _ & _ & [(Hd & ->) | (Hd & ->)])]]];
    rewrite Hb; cbn [rx ry epsilon].
  - intros _. set (rad := sqrt (Exact.JK p q r s)).
    assert (Hrad : 0 <= rad) by apply sqrt_pos.
    fold (real_ellipse rad rad 0 eps).
    rewrite canonicalise_circle.
    + rewrite Rabs_pos_eq by done. unfold real_ellipse. do 2 f_equal; f_equal; lra.
    + rewrite Rminus_diag, Rabs_R0. done.
  - intros [?|Htest]; [discriminate|].
    apply canonicalise_fixed_ellipse; try apply abs_sqrt; try done. cbn. lra.
  - intros [?|Htest]; [discriminate|].
    apply canonicalise_fixed_ellipse; try apply abs_sqrt; try done. cbn. lra.
  - intros [?|Htest]; [discriminate|].
    apply canonicalise_fixed_ellipse; try apply abs_sqrt; try done. cbn. lra.
  - intros [?|Htest]; [discriminate|].
    apply canonicalise_fixed_ellipse; try apply abs_sqrt; try done. cbn. lra.
Qed.

Lemma normalise_after_transform_witness :
  normalise (Fin 0) (Fin 0)
    (transform (matrix 3 4 (- 4) 3) (real_ellipse 2 2 30 (/ 10000000)))
  = transform (matrix 3 4 (- 4) 3) (real_ellipse 2 2 30 (/ 10000000)).
Proof.
  apply (normalise_after_transform 3 4 (- 4) 3 2 2 30 (/ 10000000)); [lra|].
  left. apply (circle_similarity 3 4 2 30 (/ 10000000)). lra.
Defined.

(** ** More properties of [normalise] and [isDegenerate] *)

(** X10. [normalise] never makes a sound ellipse degenerate: if a real
    ellipse with [epsilon >= 0] is not flagged by [isDegenerate], it is not
    flagged after [normalise(dx, dy)] either, for every real vector. *)
Theorem normalise_keeps_non_degenerate (x y t eps dx dy : R) :
  0 <= eps ->
  isDegenerate (real_ellipse x y t eps) = false ->
  isDegenerate (normalise (Fin dx) (Fin dy) (real_ellipse x y t eps)) = false.
Proof.
  intros H0 Hd.
  destruct (not_degenerate_nonzero x y t eps H0 Hd) as [Hx Hy].
  apply not_true_iff_false in Hd. rewrite isDegenerate_real in Hd.
  assert (Hrx : eps < Rabs x) by lra. assert (Hry : eps < Rabs y) by lra.
  destruct (canonicalise_cases x y t eps)
    as (x0 & y0 & t0 & Hc & Hx0 & Hy0 & Hnz & Hcircle & Hell).
  assert (Hbig : eps < x0 /\ eps < y0).
  { destruct (Rle_dec (Rabs (Rabs x - Rabs y)) eps) as [Hle|Hgt].
    - destruct (Hcircle Hle) as (_ & -> & ->). lra.
    - apply Rnot_le_lt in Hgt.
      destruct (Hell Hgt) as [(_ & _ & -> & ->) | (_ & _ & -> & ->)]; lra. }
  destruct (normalise_outcome _ x0 y0 t0 eps dx dy Hc Hx0 Hy0) as (k & Hk & _ & ->).
  { right. by apply Hnz. }
  apply not_true_iff_false. rewrite isDegenerate_real.
  rewrite !Rabs_pos_eq by nra. nra.
Qed.

Lemma normalise_keeps_non_degenerate_witness :
  isDegenerate (normalise (Fin 10) (Fin 0) (real_ellipse 5 3 0 (/ 10000000))) = false.
Proof.
  apply (normalise_keeps_non_degenerate 5 3 0 (/ 10000000) 10 0); [lra|].
  apply not_true_iff_false. rewrite isDegenerate_real. split_Rabs; lra.
Defined.

(** X11. Over exact real arithmetic the scale step enlarges the ellipse
    just enough: for a real ellipse with non-zero radii and a real vector
    other than [(0,0)], when the factor [k] computed from the canonical radii
    exceeds 1 the factor recomputed after [normalise(dx, dy)] is exactly 1
    (the vector is on the ellipse), and when [k <= 1] it is [k] itself. *)
Theorem normalise_puts_vector_on_boundary (x y t eps dx dy : R) :
  x <> 0 -> y <> 0 -> dx <> 0 \/ dy <> 0 ->
  let e := real_ellipse x y t eps in
  exists k : R,
    scale_factor (Fin dx) (Fin dy) (canonicalise e) = Fin k /\
    (1 < k ->
     scale_factor (Fin dx) (Fin dy) (normalise (Fin dx) (Fin dy) e) = Fin 1) /\
    (k <= 1 ->
     scale_factor (Fin dx) (Fin dy) (normalise (Fin dx) (Fin dy) e) = Fin k).
Proof.
  intros Hx Hy Hv; cbv zeta.
  destruct (canonicalise_cases x y t eps)
    as (x0 & y0 & t0 & Hc & Hx0 & Hy0 & Hnz & _).
  destruct (Hnz Hx Hy) as [Hx0' Hy0'].
  rewrite (normalise_scale dx dy x0 y0 t0 eps Hx0' Hy0' _ Hc Hv), Hc.
  rewrite scale_factor_fin by done.
  exists (ExactScale.k dx dy x0 y0 t0). split; [done|].
  destruct (Rlt_dec 1 (ExactScale.k dx dy x0 y0 t0)) as [Hk|Hk].
  - assert (Hxk : x0 * ExactScale.k dx dy x0 y0 t0 <> 0) by nra.
    assert (Hyk : y0 * ExactScale.k dx dy x0 y0 t0 <> 0) by nra.
    rewrite scale_factor_fin by done. rewrite k_after_scaling by done.
    split; [done | lra].
  - rewrite scale_factor_fin by done. split; [lra | done].
Qed.

Lemma normalise_puts_vector_on_boundary_witness :
  exists k : R,
    scale_factor (Fin 10) (Fin 0) (canonicalise (real_ellipse 5 3 0 (/ 10000000)))
      = Fin k /\
    (1 < k ->
     scale_factor (Fin 10) (Fin 0)
       (normalise (Fin 10) (Fin 0) (real_ellipse 5 3 0 (/ 10000000))) = Fin 1) /\
    (k <= 1 ->
     scale_factor (Fin 10) (Fin 0)
       (normalise (Fin 10) (Fin 0) (real_ellipse 5 3 0 (/ 10000000))) = Fin k).
Proof.
  apply (normalise_puts_vector_on_boundary 5 3 0 (/ 10000000) 10 0);
    [lra | lra | left; lra].
Defined.

(** A canonical ellipse whose radii are multiplied by [k >= 1] is still
    canonical. *)
Lemma canonicalise_scaled (x y t eps x0 y0 t0 k : R) :
  canonicalise (real_ellipse x y t eps) = real_ellipse x0 y0 t0 eps ->
  1 <= k ->
  canonicalise (real_ellipse (x0 * k) (y0 * k) t0 eps)
  = real_ellipse (x0 * k) (y0 * k) t0 eps.
Proof.
  intros Hc Hk.
  destruct (canonicalise_cases x y t eps)
    as (x1 & y1 & t1 & Hc1 & Hx0 & Hy0 & _ & Hcircle & Hell).
  rewrite Hc in Hc1. injection Hc1 as <- <- <-.
  pose proof (half_turn_bound t) as Hht.
  pose proof (Rabs_pos (Rabs x - Rabs y)) as Hpos.
  destruct (Rle_dec (Rabs (Rabs x - Rabs y)) eps) as [Hle|Hgt].
  - destruct (Hcircle Hle) as (-> & Hx0' & Hy0').
    rewrite Hy0', <- Hx0'.
    rewrite canonicalise_circle by (rewrite Rminus_diag, Rabs_R0; lra).
    rewrite Rabs_pos_eq by nra. unfold real_ellipse. do 2 f_equal; f_equal; lra.
  - apply Rnot_le_lt in Hgt.
    assert (Hdiff : eps < Rabs (x0 * k + - (y0 * k))).
    { replace (x0 * k + - (y0 * k)) with ((x0 - y0) * k) by ring.
      rewrite Rabs_mult, (Rabs_pos_eq k) by lra.
      assert (Hsame : Rabs (x0 - y0) = Rabs (Rabs x - Rabs y)).
      { destruct (Hell Hgt) as [(_ & _ & -> & ->) | (_ & _ & -> & ->)];
          [done | apply Rabs_minus_sym]. }
      rewrite Hsame. nra. }
    apply canonicalise_fixed_ellipse.
    + cbn. by rewrite Rabs_pos_eq by nra.
    + cbn. by rewrite Rabs_pos_eq by nra.
    + by apply le_fin_false.
    + cbn. destruct (Hell Hgt) as [(? & -> & _) | (? & -> & _)]; lra.
Qed.

(** X12. Over exact real arithmetic [normalise(dx, dy)] is idempotent for
    every real vector on every real ellipse with non-zero radii: a second
    call with the same vector changes nothing. *)
Theorem normalise_vector_idempotent (x y t eps dx dy : R) :
  x <> 0 -> y <> 0 ->
  let e := real_ellipse x y t eps in
  normalise (Fin dx) (Fin dy) (normalise (Fin dx) (Fin dy) e)
  = normalise (Fin dx) (Fin dy) e.
Proof.
  intros Hx Hy; cbv zeta.
  destruct (canonicalise_cases x y t eps)
    as (x0 & y0 & t0 & Hc & Hx0 & Hy0 & Hnz & _).
  destruct (Hnz Hx Hy) as [Hx0' Hy0'].
  destruct (Req_dec_T dx 0) as [Hdx|Hdx]; [destruct (Req_dec_T dy 0) as [Hdy|Hdy]|].
  { rewrite !(normalise_no_vector (Fin dx) (Fin dy)) by (by apply not_fin).
    apply canonicalise_idempotent. }
  all: assert (Hv : dx <> 0 \/ dy <> 0) by tauto.
  all: rewrite (normalise_scale dx dy x0 y0 t0 eps Hx0' Hy0' _ Hc Hv).
  all: destruct (Rlt_dec 1 (ExactScale.k dx dy x0 y0 t0)) as [Hk|Hk].
  all: try (
    pose proof (canonicalise_scaled x y t eps x0 y0 t0 _ Hc (Rlt_le _ _ Hk)) as Hc2;
    assert (Hxk : x0 * ExactScale.k dx dy x0 y0 t0 <> 0) by nra;
    assert (Hyk : y0 * ExactScale.k dx dy x0 y0 t0 <> 0) by nra;
    rewrite (normalise_scale dx dy _ _ t0 eps Hxk Hyk _ Hc2 Hv);
    rewrite k_after_scaling by done;
    destruct (Rlt_dec 1 1); [lra | done]).
  all: pose proof (canonicalise_scaled x y t eps x0 y0 t0 1 Hc ltac:(lra)) as Hc2;
    rewrite !Rmult_1_r in Hc2;
    rewrite (normalise_scale dx dy x0 y0 t0 eps Hx0' Hy0' _ Hc2 Hv);
    destruct (Rlt_dec 1 (ExactScale.k dx dy x0 y0 t0)); [lra | done].
Qed.

Lemma normalise_vector_idempotent_witness :
  normalise (Fin 10) (Fin 0)
    (normalise (Fin 10) (Fin 0) (real_ellipse 5 3 0 (/ 10000000)))
  = normalise (Fin 10) (Fin 0) (real_ellipse 5 3 0 (/ 10000000)).
Proof.
  apply (normalise_vector_idempotent 5 3 0 (/ 10000000) 10 0); lra.
Defined.

(** ** The constructor and [isDegenerate] *)

Lemma powerRZ_10_antitone (p p' : Z) :
  (p <= p')%Z -> powerRZ 10 (- p') <= powerRZ 10 (- p).
Proof.
  intros Hp.
  replace (- p)%Z with (- p' + Z.of_nat (Z.to_nat (p' - p)))%Z by lia.
  rewrite powerRZ_add by lra. rewrite <- pow_powerRZ.
  pose proof (powerRZ_10_pos (- p')) as Hpos.
  pose proof (pow_R1_Rle 10 (Z.to_nat (p' - p)) ltac:(lra)) as Hge.
  nra.
Qed.

Lemma le_fin_weaken (a : num) (u v : R) :
  u <= v -> (a <=? Fin u)%num = true -> (a <=? Fin v)%num = true.
Proof.
  intros Huv. destruct a as [w| | |]; cbn; try done.
  destruct (Rle_dec w u), (Rle_dec w v); try done. lra.
Qed.

(** X13. An ellipse constructed with a zero radius is flagged by
    [isDegenerate] whatever the other radius (NaN included), the angle and
    the precision; and an ellipse flagged at some precision is flagged at
    every lower precision. *)
Theorem constructed_degenerate (r0 r1 t : num) (precision : option Z) (p p' : Z) :
  isDegenerate (Ellipse_new (Fin 0) r1 t precision) = true /\
  isDegenerate (Ellipse_new r0 (Fin 0) t precision) = true /\
  ((p <= p')%Z ->
   isDegenerate (Ellipse_new r0 r1 t (Some p')) = true ->
   isDegenerate (Ellipse_new r0 r1 t (Some p)) = true).
Proof.
  assert (Hzero : forall eps, 0 < eps -> (Num.abs (Fin 0) <=? Fin eps)%num = true).
  { intros eps Heps. cbn [Num.abs]. apply le_fin. rewrite Rabs_R0. lra. }
  assert (Hpos : forall prec,
            exists eps, 0 < eps /\
              forall a b c, epsilon (Ellipse_new a b c prec) = Fin eps).
  { intros [z|]; eexists; (split; [apply powerRZ_10_pos | reflexivity]). }
  destruct (Hpos precision) as (eps & Heps & He).
  unfold isDegenerate. rewrite !He. cbn [Ellipse_new rx ry epsilon].
  split_and!.
  - by rewrite Hzero.
  - rewrite (Hzero eps Heps). apply orb_true_r.
  - intros Hp. rewrite !orb_true_iff.
    pose proof (powerRZ_10_antitone p p' Hp) as Hmono.
    intros [H|H]; [left | right]; by apply (le_fin_weaken _ _ _ Hmono).
Qed.

(** ** Missing arguments *)

Section Missing.

Local Open Scope num_scope.

Lemma mul_NaN_r (a : num) : a * NaN = NaN.
Proof. by destruct a. Qed.

Lemma add_NaN_r (a : num) : a + NaN = NaN.
Proof. by destruct a. Qed.

Lemma sub_NaN_l (a : num) : NaN - a = NaN.
Proof. by destruct a. Qed.

Lemma sub_NaN_r (a : num) : a - NaN = NaN.
Proof. by destruct a. Qed.

Lemma div_NaN_r (a : num) : a / NaN = NaN.
Proof. by destruct a. Qed.

Lemma idx_short (m : list num) : (length m < 4)%nat -> m.[3] = NaN.
Proof. intros Hlen. unfold idx. by rewrite lookup_ge_None_2 by lia. Qed.

Lemma scale_factor_NaN (dx dy : num) (e : Ellipse) :
  dx = NaN \/ dy = NaN -> scale_factor dx dy e = NaN.
Proof.
  intros [-> | ->]; unfold scale_factor; cbv zeta; cbn [Num.mul].
  - rewrite sub_NaN_l. cbn [Num.add Num.div Num.mul]. done.
  - rewrite sub_NaN_r, add_NaN_r. cbn [Num.add Num.div Num.mul]. done.
Qed.

End Missing.

(** ** The vector and the scaled ellipse *)

Section ZeroRadius.

Local Open Scope num_scope.

Lemma square_not_finite (a : num) :
  Num.is_finite a = false -> a * a = PInf \/ a * a = NaN.
Proof. destruct a; cbn; try done; auto. Qed.

(** A division by zero gives an infinity, or NaN for [0 / 0]. *)
Lemma div_zero_not_finite (u : R) : Num.is_finite (Fin u / Fin 0) = false.
Proof.
  unfold Num.div. destruct (Req_dec_T 0 0); [|done].
  unfold Num.signed. destruct (Req_dec_T u 0); [done|].
  destruct (Rlt_dec 0 u); done.
Qed.

Lemma sum_squares_not_finite (a b : num) :
  Num.is_finite a = false \/ Num.is_finite b = false ->
  Num.sqrt (a * a + b * b) = PInf \/ Num.sqrt (a * a + b * b) = NaN.
Proof.
  intros [H|H].
  - destruct (square_not_finite a H) as [-> | ->]; [|right; done].
    destruct b as [v| | |]; cbn; auto.
  - destruct (square_not_finite b H) as [-> | ->].
    + destruct a as [v| | |]; cbn; auto.
    + right. destruct (a * a); done.
Qed.

(** With a zero radius [k] is Infinity or NaN, whatever the vector. *)
Lemma scale_factor_zero_radius (dx dy x0 y0 t0 eps : R) :
  (x0 = 0 \/ y0 = 0)%R ->
  scale_factor (Fin dx) (Fin dy) (real_ellipse x0 y0 t0 eps) = PInf
  \/ scale_factor (Fin dx) (Fin dy) (real_ellipse x0 y0 t0 eps) = NaN.
Proof.
  intros H. unfold scale_factor; cbv zeta. rewrite torad_fin.
  cbn [real_ellipse rx ry ax Num.neg Num.mul Num.cos Num.sin Num.sub Num.add].
  apply sum_squares_not_finite.
  destruct H as [-> | ->]; [left | right]; apply div_zero_not_finite.
Qed.

Lemma scale_factor_NaN_radius (dx dy : num) (e : Ellipse) :
  rx e = NaN \/ ry e = NaN -> scale_factor dx dy e = NaN.
Proof.
  intros H. unfold scale_factor; cbv zeta.
  destruct H as [-> | ->].
  - destruct (_ - _); cbn; done.
  - rewrite div_NaN_r. cbn [Num.mul]. by rewrite add_NaN_r.
Qed.

Lemma not_vector (dx dy : R) :
  (dx <> 0 \/ dy <> 0)%R -> Num.not (Fin dx) && Num.not (Fin dy) = false.
Proof.
  intros Hv. unfold Num.not.
  destruct (Req_dec_T dx 0), (Req_dec_T dy 0); try done. destruct Hv; done.
Qed.

(** After [normalise] on an ellipse with a zero canonical radius the
    recomputed factor is NaN: either [k] was Infinity and [0 * Infinity] made
    a radius NaN, or [k] was NaN and nothing was scaled. *)
Lemma recomputed_factor_zero_radius (e : Ellipse) (x0 y0 t0 eps dx dy : R) :
  canonicalise e = real_ellipse x0 y0 t0 eps ->
  (dx <> 0 \/ dy <> 0)%R -> (x0 = 0 \/ y0 = 0)%R ->
  scale_factor (Fin dx) (Fin dy) (normalise (Fin dx) (Fin dy) e) = NaN.
Proof.
  intros Hc Hv Hz. unfold normalise; cbv zeta. rewrite Hc, not_vector by done.
  destruct (scale_factor_zero_radius dx dy x0 y0 t0 eps Hz) as [Hk|Hk]; rewrite Hk.
  - cbn [Num.gt Num.lt]. apply scale_factor_NaN_radius.
    unfold set_rx, set_ry, real_ellipse; cbn [rx ry ax epsilon].
    destruct Hz as [-> | ->]; [left | right]; cbn [Num.mul]; apply signed_zero.
  - cbn [Num.gt Num.lt]. exact Hk.
Qed.

End ZeroRadius.

(** C1, as amended.  Over exact real arithmetic, for every real ellipse,
    every [epsilon >= 0] and every real vector [(dx,dy)] other than [(0,0)]:
    when the two radii left by the canonicalisation steps are not zero, the
    factor [k] recomputed after [normalise(dx,dy)] from the final
    [(rx, ry, ax)] by the same formula is a real number with
    [k <= 1 + epsilon]; when one of them is zero the recomputed factor is NaN
    and the test [k <= 1 + epsilon] is false. *)
Theorem normalise_contains_vector (x y t eps dx dy : R) :
  0 <= eps -> dx <> 0 \/ dy <> 0 ->
  let e := real_ellipse x y t eps in
  let e' := normalise (Fin dx) (Fin dy) e in
  (rx (canonicalise e) <> Fin 0 /\ ry (canonicalise e) <> Fin 0 ->
   exists k' : R,
     scale_factor (Fin dx) (Fin dy) e' = Fin k' /\ k' <= 1 + eps /\
     (scale_factor (Fin dx) (Fin dy) e' <=? Fin 1 + epsilon e')%num = true) /\
  (rx (canonicalise e) = Fin 0 \/ ry (canonicalise e) = Fin 0 ->
   (scale_factor (Fin dx) (Fin dy) e' <=? Fin 1 + epsilon e')%num = false).
Proof.
  intros Heps Hv; cbv zeta.
  destruct (canonicalise_cases x y t eps)
    as (x0 & y0 & t0 & Hc & Hx0 & Hy0 & _).
  rewrite Hc; cbn [rx ry real_ellipse]. rewrite !fin_nonzero, !fin_zero. split.
  - intros [Hx0' Hy0'].
    rewrite (normalise_scale dx dy x0 y0 t0 eps Hx0' Hy0' _ Hc Hv).
    destruct (Rlt_dec 1 (ExactScale.k dx dy x0 y0 t0)) as [Hk|Hk].
    + assert (Hxk : x0 * ExactScale.k dx dy x0 y0 t0 <> 0) by nra.
      assert (Hyk : y0 * ExactScale.k dx dy x0 y0 t0 <> 0) by nra.
      rewrite scale_factor_fin by done. rewrite k_after_scaling by done.
      exists 1. split_and!; [done | lra |]. apply le_fin. lra.
    + rewrite scale_factor_fin by done. eexists. split_and!; [done | lra |].
      apply le_fin. lra.
  - intros Hz.
    by rewrite (recomputed_factor_zero_radius _ x0 y0 t0 eps dx dy Hc Hv Hz).
Qed.

(** [Ellipse(5, 3, 0).normalise(10, 0)] has non-zero radii,
    [Ellipse(0, 1, 0).normalise(1, 0)] a zero radius. *)
Lemma normalise_contains_vector_witness :
  (exists k' : R,
     scale_factor (Fin 10) (Fin 0)
       (normalise (Fin 10) (Fin 0) (real_ellipse 5 3 0 (/ 10000000))) = Fin k' /\
     k' <= 1 + / 10000000 /\
     (scale_factor (Fin 10) (Fin 0)
        (normalise (Fin 10) (Fin 0) (real_ellipse 5 3 0 (/ 10000000)))
      <=? Fin 1 + epsilon (normalise (Fin 10) (Fin 0) (real_ellipse 5 3 0 (/ 10000000))))%num
     = true) /\
  (scale_factor (Fin 1) (Fin 0)
     (normalise (Fin 1) (Fin 0) (real_ellipse 0 1 0 (/ 10000000)))
   <=? Fin 1 + epsilon (normalise (Fin 1) (Fin 0) (real_ellipse 0 1 0 (/ 10000000))))%num
  = false.
Proof.
  split.
  - destruct (normalise_contains_vector 5 3 0 (/ 10000000) 10 0) as [H _];
      [lra | left; lra |].
    apply H. rewrite canonicalise_axis by (split_Rabs; lra).
    cbn [rx ry real_ellipse]. rewrite !fin_nonzero. split; split_Rabs; lra.
  - destruct (normalise_contains_vector 0 1 0 (/ 10000000) 1 0) as [_ H];
      [lra | left; lra |].
    apply H. rewrite canonicalise_axis by (rewrite Rabs_R0, Rabs_R1; split_Rabs; lra).
    cbn [rx ry real_ellipse]. rewrite !fin_zero. left. apply Rabs_R0.
Defined.

(** ** Divisions by the radii *)

(** Which real ellipses the first steps of [normalise] leave with a zero
    radius: those with two zero radii, and those with one zero radius that
    are not made a circle. *)
Lemma canonical_radius_zero (x y t eps : R) (x0 y0 t0 : R) :
  canonicalise (real_ellipse x y t eps) = real_ellipse x0 y0 t0 eps ->
  (x0 = 0 \/ y0 = 0) <->
  (x = 0 /\ y = 0) \/ (eps < Rabs (Rabs x - Rabs y) /\ (x = 0 \/ y = 0)).
Proof.
  intros Hc.
  destruct (canonicalise_cases x y t eps)
    as (x1 & y1 & t1 & Hc' & _ & _ & _ & Hcircle & Hell).
  rewrite Hc in Hc'. injection Hc' as <- <- <-.
  pose proof (Rabs_pos x) as Hx. pose proof (Rabs_pos y) as Hy.
  assert (Hx0 : Rabs x = 0 <-> x = 0).
  { split; [|intros ->; apply Rabs_R0]. intros H.
    destruct (Req_dec_T x 0) as [|Hn]; [done|]. apply Rabs_pos_lt in Hn. lra. }
  assert (Hy0 : Rabs y = 0 <-> y = 0).
  { split; [|intros ->; apply Rabs_R0]. intros H.
    destruct (Req_dec_T y 0) as [|Hn]; [done|]. apply Rabs_pos_lt in Hn. lra. }
  destruct (Rle_dec (Rabs (Rabs x - Rabs y)) eps) as [Hd|Hd].
  - destruct (Hcircle Hd) as (_ & -> & ->). split.
    + intros H. left. assert (Rabs x = 0 /\ Rabs y = 0) as [? ?] by lra. tauto.
    + intros [[Ha Hb]|[? _]]; [|lra]. apply Hx0 in Ha. apply Hy0 in Hb. lra.
  - apply Rnot_le_lt in Hd.
    destruct (Hell Hd) as [(_ & _ & -> & ->) | (_ & _ & -> & ->)]; split.
    all: try (intros [?|?]; right; split; tauto).
    all: intros [[Ha Hb]|[_ [?|?]]]; tauto.
Qed.

(** C3, as amended.  Over exact real arithmetic, on real inputs with
    [epsilon >= 0]: the constant divisor [torad] is not zero; when
    [transform] reaches the angle formula the divisor it selects has absolute
    value above [epsilon], so it is not zero; [normalise] divides by the radii
    left by its first steps, which are not zero, and [k] is then a real
    number, unless both radii of the ellipse are zero, or one is zero and the
    absolute radii differ by more than [epsilon]; in those two cases a radius
    is zero when [normalise] divides by it, and [k] is Infinity or NaN. *)
Theorem divisions_guarded (a b c d x y t eps dx dy : R) :
  0 <= eps ->
  let m := matrix a b c d in
  let e := real_ellipse x y t eps in
  let zero_radius :=
    (x = 0 /\ y = 0) \/ (eps < Rabs (Rabs x - Rabs y) /\ (x = 0 \/ y = 0)) in
  (exists u : R, torad = Fin u /\ u <> 0) /\
  (transform_branch m e = General ->
   exists dv : R, angle_divisor (ma m e) = Fin dv /\ eps < Rabs dv /\ dv <> 0) /\
  (~ zero_radius ->
   exists x0 y0 t0 k : R,
     canonicalise e = real_ellipse x0 y0 t0 eps /\ x0 <> 0 /\ y0 <> 0 /\
     scale_factor (Fin dx) (Fin dy) (canonicalise e) = Fin k) /\
  (zero_radius ->
   (rx (canonicalise e) = Fin 0 \/ ry (canonicalise e) = Fin 0) /\
   Num.is_finite (scale_factor (Fin dx) (Fin dy) (canonicalise e)) = false).
Proof.
  intros H0; cbv zeta.
  destruct (canonicalise_cases x y t eps) as (x0 & y0 & t0 & Hc & _).
  pose proof (canonical_radius_zero x y t eps x0 y0 t0 Hc) as Hz.
  split_and!.
  - exists (PI / 180). split; [apply torad_fin|]. pose proof torad_pos. lra.
  - pose proof (ma_fin a b c d x y t eps) as Hma. revert Hma.
    set (p := (x * _)%R). set (q := (x * _)%R). set (r := (y * _)%R). set (s := (y * _)%R).
    intros Hma.
    destruct (transform_cases _ _ p q r s eps Hma eq_refl H0)
      as [(_ & Hb & _) | [(_ & Hb & _) | [(_ & Hb & _) | (_ & _ & _ & Hd & _)]]];
      try (rewrite Hb; discriminate).
    intros _. rewrite Hma, angle_divisor_fin. eexists. split; [done|].
    split; [done|]. by apply (Rabs_above_nonzero _ eps).
  - intros Hnz. rewrite <- Hz in Hnz.
    assert (Hx0 : x0 <> 0) by tauto. assert (Hy0 : y0 <> 0) by tauto.
    exists x0, y0, t0, (ExactScale.k dx dy x0 y0 t0).
    rewrite Hc. split_and!; try done. by apply scale_factor_fin.
  - intros Hzero. rewrite <- Hz in Hzero. rewrite Hc. cbn [rx ry real_ellipse].
    rewrite !fin_zero. split; [done|].
    destruct (scale_factor_zero_radius dx dy x0 y0 t0 eps Hzero) as [-> | ->]; done.
Qed.

(** [Ellipse(5, 3, 45)] under the identity reaches the angle formula and has
    non-zero radii; [Ellipse(0, 1, 0)] has a zero radius and is no circle. *)
Lemma divisions_guarded_witness :
  (exists dv : R,
     angle_divisor (ma (matrix 1 0 0 1) (real_ellipse 5 3 45 (/ 10000000))) = Fin dv /\
     / 10000000 < Rabs dv /\ dv <> 0) /\
  (exists x0 y0 t0 k : R,
     canonicalise (real_ellipse 5 3 45 (/ 10000000))
       = real_ellipse x0 y0 t0 (/ 10000000) /\ x0 <> 0 /\ y0 <> 0 /\
     scale_factor (Fin 10) (Fin 0) (canonicalise (real_ellipse 5 3 45 (/ 10000000)))
       = Fin k) /\
  ((rx (canonicalise (real_ellipse 0 1 0 (/ 10000000))) = Fin 0
    \/ ry (canonicalise (real_ellipse 0 1 0 (/ 10000000))) = Fin 0) /\
   Num.is_finite
     (scale_factor (Fin 1) (Fin 0) (canonicalise (real_ellipse 0 1 0 (/ 10000000))))
   = false).
Proof.
  destruct (divisions_guarded 1 0 0 1 5 3 45 (/ 10000000) 10 0)
    as (_ & Hd & Hn & _); [lra|].
  destruct (divisions_guarded 1 0 0 1 0 1 0 (/ 10000000) 1 0)
    as (_ & _ & _ & Hz); [lra|].
  split; [|split].
  - apply Hd, identity_45_general.
  - apply Hn. intros [[? ?]|[_ [?|?]]]; lra.
  - apply Hz. right. split; [|by left]. rewrite Rabs_R0, Rabs_R1. split_Rabs; lra.
Defined.

(** X14. A vector with a NaN or omitted component never scales the ellipse:
    for every ellipse, [normalise(dx, dy)] with [dx] or [dy] NaN (or
    [undefined]) returns what [normalise()] returns. *)
Theorem normalise_missing_component (dx dy : num) (e : Ellipse) :
  normalise NaN dy e = normalise NaN NaN e /\
  normalise dx NaN e = normalise NaN NaN e.
Proof.
  assert (H : forall u v, u = NaN \/ v = NaN -> normalise u v e = canonicalise e).
  { intros u v Huv. unfold normalise; cbv zeta.
    rewrite (scale_factor_NaN u v _ Huv).
    destruct (Num.not u && Num.not v); reflexivity. }
  rewrite !H by auto. done.
Qed.

(** X15. [transform] with an array of fewer than four entries raises no
    error: for every ellipse the missing [m[3]] makes all three of [rx],
    [ry] and [ax] NaN, [epsilon] is kept, and [isDegenerate] does not flag
    the result. *)
Theorem transform_short_matrix (m : list num) (e : Ellipse) :
  (length m < 4)%nat ->
  transform m e = mkEllipse NaN NaN NaN (epsilon e) /\
  isDegenerate (transform m e) = false.
Proof.
  intros Hlen.
  assert (Ht : transform m e = mkEllipse NaN NaN NaN (epsilon e)).
  { assert (H1 : (ma m e).[1] = NaN).
    { unfold ma; cbv zeta. cbn [idx lookup list_lookup default].
      fold (idx m 3). fold (idx m 1).
      rewrite (idx_short m Hlen). cbn [Num.mul].
      by rewrite add_NaN_r, mul_NaN_r. }
    assert (H3 : (ma m e).[3] = NaN).
    { unfold ma; cbv zeta. cbn [idx lookup list_lookup default].
      fold (idx m 3). fold (idx m 1).
      rewrite (idx_short m Hlen). cbn [Num.mul].
      by rewrite add_NaN_r, mul_NaN_r. }
    assert (HK : K (ma m e) = NaN) by (unfold K; rewrite H1; done).
    assert (HL : L (ma m e) = NaN)
      by (unfold L; rewrite H1, H3, !mul_NaN_r; done).
    assert (HD : D (ma m e) = NaN).
    { unfold D, discriminant. rewrite H1, H3, sub_NaN_r. done. }
    assert (HJK : JK (ma m e) = NaN) by (unfold JK; rewrite HK, add_NaN_r; done).
    assert (Hl1 : l1 (ma m e) = NaN) by (unfold l1; rewrite HJK; done).
    assert (Hl2 : l2 (ma m e) = NaN) by (unfold l2; rewrite HJK; done).
    unfold transform; cbv zeta. rewrite HD, HK, HL, Hl1, Hl2. done. }
  split; [done|]. rewrite Ht. reflexivity.
Qed.

Lemma transform_short_matrix_witness :
  transform [Fin 1; Fin 0; Fin 0] (real_ellipse 5 3 0 (/ 10000000))
    = mkEllipse NaN NaN NaN (epsilon (real_ellipse 5 3 0 (/ 10000000))) /\
  isDegenerate (transform [Fin 1; Fin 0; Fin 0] (real_ellipse 5 3 0 (/ 10000000)))
    = false.
Proof.
  apply (transform_short_matrix [Fin 1; Fin 0; Fin 0] (real_ellipse 5 3 0 (/ 10000000))).
  cbn. lia.
Defined.

Lemma constructed_degenerate_witness :
  isDegenerate (Ellipse_new (Fin 0) (Fin 1) (Fin 0) None) = true /\
  isDegenerate (Ellipse_new (Fin 1) (Fin 0) (Fin 0) None) = true /\
  (isDegenerate (Ellipse_new (Fin 1) (Fin 0) (Fin 0) (Some 7%Z)) = true ->
   isDegenerate (Ellipse_new (Fin 1) (Fin 0) (Fin 0) (Some 3%Z)) = true).
Proof.
  destruct (constructed_degenerate (Fin 1) (Fin 1) (Fin 0) None 3 7) as (H1 & _ & _).
  destruct (constructed_degenerate (Fin 1) (Fin 0) (Fin 0) None 3 7) as (_ & H2 & H3).
  split; [exact H1 | split; [exact H2 | apply H3; lia]].
Defined.

(** X16. When [normalise()] does not make the ellipse a circle it turns the
    description by a whole number [n] of quarter turns: the new angle is
    [ax + 90 n], the radii are [|rx|], [|ry|] when [n] is even and exchanged
    when [n] is odd. *)
Theorem normalise_quarter_turns (x y t eps : R) :
  eps < Rabs (Rabs x - Rabs y) ->
  exists n : Z,
    normalise (Fin 0) (Fin 0) (real_ellipse x y t eps) =
      if Z.even n
      then real_ellipse (Rabs x) (Rabs y) (t + 90 * IZR n) eps
      else real_ellipse (Rabs y) (Rabs x) (t + 90 * IZR n) eps.
Proof.
  intros Hne.
  rewrite normalise_no_vector by (by apply not_fin).
  rewrite canonicalise_ellipse by done.
  destruct (half_turn_congruent t) as [n0 Hn0].
  destruct (Rle_dec 90 (half_turn t)).
  - exists (2 * n0 - 1)%Z.
    rewrite Z.even_sub, Z.even_mul. cbn [Z.even orb Bool.eqb].
    rewrite minus_IZR, mult_IZR, Hn0. unfold real_ellipse. do 2 f_equal. lra.
  - exists (2 * n0)%Z.
    rewrite Z.even_mul. cbn [Z.even orb].
    rewrite mult_IZR, Hn0. unfold real_ellipse. do 2 f_equal. lra.
Qed.

Lemma normalise_quarter_turns_witness :
  exists n : Z,
    normalise (Fin 0) (Fin 0) (real_ellipse (- 5) 3 200 (/ 10000000)) =
      if Z.even n
      then real_ellipse (Rabs (- 5)) (Rabs 3) (200 + 90 * IZR n) (/ 10000000)
      else real_ellipse (Rabs 3) (Rabs (- 5)) (200 + 90 * IZR n) (/ 10000000).
Proof.
  apply (normalise_quarter_turns (- 5) 3 200 (/ 10000000)).
  split_Rabs; lra.
Defined.

(** ** Runs of the binary64 program *)

Section Binary64Runs.

Import PrimFloat.
Local Open Scope float_scope.

Lemma conforming_fixed_points : B64.conforming B64.fixed_points.
Proof. repeat split. Qed.

(** The constants of the runs are the binary64 numbers nearest to 1e-7,
    1e-16 and -1e-20: each is the rounded quotient of 1 by a power of ten
    that binary64 holds exactly. *)
Lemma b64_decimal_constants :
  B64.epsilon_default = 1 / 10000000 /\
  B64.epsilon_16 = 1 / 10000000000000000 /\
  -0x1.79ca10c924223p-67 = - (1 / 100000000000000000000).
Proof. repeat split; vm_compute; reflexivity. Qed.

(** X19. In the binary64 program too, whatever [Math.cos], [Math.sin] and
    [Math.atan] answer, [transform] and [normalise] leave [epsilon] as it
    was, for every array, every vector and every ellipse, NaN and infinite
    fields included. *)
Theorem b64_methods_keep_epsilon (M : B64.Math) (m : list float) (dx dy : float)
    (e : B64.Ellipse) :
  B64.epsilon (B64.transform M m e) = B64.epsilon e /\
  B64.epsilon (B64.normalise M dx dy e) = B64.epsilon e.
Proof.
  split.
  - unfold B64.transform; cbv zeta.
    repeat match goal with |- context [if ?b then _ else _] => destruct b end;
      reflexivity.
  - unfold B64.normalise, B64.canonicalise; cbv zeta.
    repeat match goal with |- context [if ?b then _ else _] => destruct b end;
      reflexivity.
Qed.


(** Evaluate a run in which [M] is only asked for its fixed values. *)
Ltac eval_b64 M HM :=
  destruct M as [cosM sinM atanM];
  destruct HM as (Hcos & Hsin & Hsin' & Hatan);
  cbn [B64.cos B64.sin B64.atan] in Hcos, Hsin, Hsin', Hatan;
  vm_compute in Hsin';
  repeat (progress (vm_compute; rewrite ?Hcos, ?Hsin, ?Hsin', ?Hatan)).


(** [Ellipse(5, 3, -1e-20).normalise()], twice: [-1e-20 + 180] rounds to
    180, which the test [ax >= 90] sends to 90 with the radii exchanged; the
    second call finds [90 >= 90] and exchanges them again. *)
Lemma b64_normalise_twice (M : B64.Math) :
  let e := B64.mkEllipse 5 3 (-0x1.79ca10c924223p-67) B64.epsilon_default in
  B64.normalise M nan nan e = B64.mkEllipse 3 5 90 B64.epsilon_default /\
  B64.normalise M nan nan (B64.normalise M nan nan e)
    = B64.mkEllipse 5 3 0 B64.epsilon_default.
Proof. split; vm_compute; reflexivity. Qed.

(** [Ellipse(1, 5, 0, 16).normalise(1, 3)]: the radii are scaled by
    [k = 1.16...], and the factor recomputed from the rounded radii is
    1.0000000000000002, above [1 + epsilon = 1]. *)
Lemma b64_recomputed_factor (M : B64.Math) :
  B64.conforming M ->
  let e' := B64.normalise M 1 3 (B64.mkEllipse 1 5 0 B64.epsilon_16) in
  B64.scale_factor M 1 3 e' = 0x1.0000000000001p+0 /\
  (B64.scale_factor M 1 3 e' <=? 1 + B64.epsilon e') = false.
Proof.
  intros HM. split; eval_b64 M HM; reflexivity.
Qed.

(** [Ellipse(1e9, 7, 0).transform([1, 0, 0, 1])]: [D] and [|J - K|] round
    apart, the general branch is taken and [l2 = JK - D / 2] comes out as 64
    instead of 49. *)
Lemma b64_identity_changes_radius (M : B64.Math) :
  B64.conforming M ->
  B64.transform M [1; 0; 0; 1] (B64.mkEllipse 1000000000 7 0 B64.epsilon_default)
  = B64.mkEllipse 1000000000 8 0 B64.epsilon_default.
Proof.
  intros HM. eval_b64 M HM. reflexivity.
Qed.

(** [Ellipse(5e-324, 0, 0).normalise(1, 0)]: the radii are within [epsilon]
    of each other and their mean [(5e-324 + 0) / 2] rounds to 0, so the scale
    step divides by zero although a radius of the ellipse is not zero. *)
Lemma b64_mean_underflows (M : B64.Math) :
  B64.conforming M ->
  let e := B64.mkEllipse 0x1p-1074 0 0 B64.epsilon_default in
  is_zero (B64.rx e) = false /\
  B64.canonicalise e = B64.mkEllipse 0 0 0 B64.epsilon_default /\
  is_nan (B64.scale_factor M 1 0 (B64.canonicalise e)) = true.
Proof.
  intros HM. split_and!; [reflexivity | vm_compute; reflexivity |].
  eval_b64 M HM. reflexivity.
Qed.

(** C1 fails on [Ellipse(0, 1, 0).normalise(1, 0)], where the factor
    recomputed from the final radii is NaN, and in binary64 on
    [Ellipse(1, 5, 0, 16).normalise(1, 3)], where it is 1.0000000000000002
    and [1 + epsilon] is 1. *)
Lemma containment_fails :
  (let e' := normalise (Fin 1) (Fin 0) (Ellipse_new (Fin 0) (Fin 1) (Fin 0) None) in
   (scale_factor (Fin 1) (Fin 0) e' <=? Fin 1 + epsilon e')%num = false) /\
  B64.conforming B64.fixed_points /\
  (forall M : B64.Math, B64.conforming M ->
   let e' := B64.normalise M 1 3 (B64.mkEllipse 1 5 0 B64.epsilon_16) in
   (B64.scale_factor M 1 3 e' <=? 1 + B64.epsilon e') = false).
Proof.
  split; [|split].
  - apply containment_fails_on_zero_radius.
  - apply conforming_fixed_points.
  - intros M HM. apply (b64_recomputed_factor M HM).
Qed.

(** C2 fails on [Ellipse(1, 1, 45).transform([1, 0, 0, 1])], where the angle
    45 becomes 0, and in binary64 on
    [Ellipse(1e9, 7, 0).transform([1, 0, 0, 1])], where [ry] becomes 8. *)
Lemma identity_changes_ellipse :
  (let e := Ellipse_new (Fin 1) (Fin 1) (Fin 45) None in
   (Num.abs (ax (transform (matrix 1 0 0 1) e) - ax e) <=? epsilon e)%num = false) /\
  B64.conforming B64.fixed_points /\
  (forall M : B64.Math, B64.conforming M ->
   let e := B64.mkEllipse 1000000000 7 0 B64.epsilon_default in
   let e' := B64.transform M [1; 0; 0; 1] e in
   B64.ry e' = 8 /\ (abs (B64.ry e' - B64.ry e) <=? B64.epsilon e) = false).
Proof.
  split; [|split].
  - apply identity_resets_circle_angle.
  - apply conforming_fixed_points.
  - intros M HM; cbv zeta. rewrite (b64_identity_changes_radius M HM).
    split; vm_compute; reflexivity.
Qed.


(** C5 fails on [Ellipse(1, 1, 0).normalise(2, 0)], a near circle whose
    final radii are 2 and not the mean 1; on
    [Ellipse(0, 1, 0).normalise(1, 0)], whose final [rx] is NaN; and in
    binary64 on [Ellipse(5, 3, -1e-20).normalise()], whose final [ax] is
    90. *)
Lemma normalise_breaks_invariant :
  (let e := Ellipse_new (Fin 1) (Fin 1) (Fin 0) None in
   (Num.abs (Num.abs (rx e) - Num.abs (ry e)) <=? epsilon e)%num = true /\
   rx (normalise (Fin 2) (Fin 0) e) = Fin 2 /\
   rx (normalise (Fin 2) (Fin 0) e)
     <> ((Num.abs (rx e) + Num.abs (ry e)) / Fin 2)%num) /\
  (let e := Ellipse_new (Fin 0) (Fin 1) (Fin 0) None in
   rx (normalise (Fin 1) (Fin 0) e) = NaN /\
   (rx (normalise (Fin 1) (Fin 0) e) >=? Fin 0)%num = false) /\
  (forall M : B64.Math,
   let e := B64.mkEllipse 5 3 (-0x1.79ca10c924223p-67) B64.epsilon_default in
   B64.ax (B64.normalise M nan nan e) = 90 /\
   (B64.ax (B64.normalise M nan nan e) <? 90) = false).
Proof.
  split; [|split].
  - apply circle_mean_fails_when_scaled.
  - cbv zeta. destruct normalise_degenerate_run as (_ & _ & _ & ->). done.
  - intros M; cbv zeta. destruct (b64_normalise_twice M) as [-> _].
    split_and!; vm_compute; reflexivity.
Qed.

(** C7.  [normalise()] is not idempotent in the program: on
    [Ellipse(5, 3, -1e-20)] the first call returns [(3, 5, 90)], an angle the
    second call takes for one that is at least 90, and the second call
    returns [(5, 3, 0)].  The same holds for [normalise(0, 0)]. *)
Theorem normalise_not_idempotent (M : B64.Math) :
  let e := B64.mkEllipse 5 3 (-0x1.79ca10c924223p-67) B64.epsilon_default in
  let once := B64.normalise M nan nan e in
  let twice := B64.normalise M nan nan once in
  once = B64.mkEllipse 3 5 90 B64.epsilon_default /\
  twice = B64.mkEllipse 5 3 0 B64.epsilon_default /\
  twice <> once /\
  (B64.ax once <? 90) = false /\
  B64.normalise M 0 0 e = once /\
  B64.normalise M 0 0 (B64.normalise M 0 0 e) = twice.
Proof.
  cbv zeta. destruct (b64_normalise_twice M) as [H1 H2]. rewrite H2, H1.
  split_and!; try (vm_compute; reflexivity).
  intros H. apply (f_equal (fun e' => B64.ax e' <? 90)) in H.
  vm_compute in H. discriminate H.
Qed.

End Binary64Runs.
